(** * The xcmapping diff engine of [xcmapping-diff.py]

    A shallow embedding of the structural comparator in
    [SideStore/Utils/misc/xcmapping-diff-reporter/xcmapping-diff.py]: the key
    resolver ([get_object_key] and its helpers), the per-tag matching
    strategies ([handle_plist_keys], [handle_object_nodes],
    [handle_default_children]), the dispatcher ([diff_children]), the
    recursive comparator ([diff_elements]), and the reporter
    ([normalize_path], [print_differences] and the functions that print one
    section each, [main] from the two parsed documents on).

    Conventions of the embedding.
    - A Python value that is either [None] or a [str] is a [pyval].
    - A Python [dict] or [set] is a [gmap] or [gset]. Python does not specify
      the order in which a [set] is iterated; the model iterates in the
      order of [elements]. The statements that relate two runs are stated up
      to the order of the records ([same_records]), and the runs evaluated
      below return at most one record.
    - A function that can raise returns an [option]: [None] stands for a
      raised exception ([AttributeError] of [None.strip()], [IndexError],
      [ValueError]); the exceptions are not told apart.
    - A string is a sequence of bytes; [strip] knows the white space of the
      first 128 characters only. The statements below rely at most on these
      characters being removed, never on another character being kept. *)

From stdpp Require Import gmap strings list pretty.


(** ** Python values and strings *)

Inductive pyval :=
  | PyNone
  | PyStr (s : string).

Global Instance pyval_eq_dec : EqDecision pyval.
Proof. solve_decision. Defined.

Definition pyval_to_option (v : pyval) : option string :=
  match v with PyNone => None | PyStr s => Some s end.

Definition pyval_of_option (o : option string) : pyval :=
  match o with None => PyNone | Some s => PyStr s end.

Global Instance pyval_countable : Countable pyval.
Proof.
  apply (inj_countable' pyval_to_option pyval_of_option).
  by intros [].
Defined.

(** [str(v)] as an f-string renders it. *)
Definition py_str (v : pyval) : string :=
  match v with PyNone => "None" | PyStr s => s end.

(** [repr(v)]: a string is quoted. Python escapes quotes, backslashes and
    control characters inside the quotes; XML names hold none of them, and
    the model writes the string as it is. *)
Definition py_repr (v : pyval) : string :=
  match v with PyNone => "None" | PyStr s => "'" +:+ s +:+ "'" end.

(** The characters [str.strip()] removes, among the first 128: tab, line
    feed, vertical tab, form feed, carriage return, the four separators
    28..31 and the space. *)
Definition is_py_space (c : Ascii.ascii) : bool :=
  let n := Ascii.nat_of_ascii c in
  ((9 <=? n) && (n <=? 13)) || ((28 <=? n) && (n <=? 32)).

Fixpoint lstrip (s : string) : string :=
  match s with
  | EmptyString => EmptyString
  | String c s' => if is_py_space c then lstrip s' else s
  end.

Definition rstrip (s : string) : string := String.rev (lstrip (String.rev s)).

Definition strip (s : string) : string := rstrip (lstrip s).

(** [needle in s] on strings. *)
Fixpoint str_contains (needle s : string) : bool :=
  String.prefix needle s ||
  match s with
  | EmptyString => false
  | String _ s' => str_contains needle s'
  end.

(** ** Nodes *)

(** An [xml.etree.ElementTree.Element]: [tag], [attrib], [text] (which is
    [None] for an element without character data) and the child elements. *)
#[local] Unset Elimination Schemes.
Inductive Element := mkElement {
  tag : string;
  attrib : gmap string string;
  text : option string;
  children : list Element
}.
#[local] Set Elimination Schemes.

(** [elem.get(name)] *)
Definition get (elem : Element) (name : string) : pyval :=
  pyval_of_option (attrib elem !! name).

(** [elem.find("attribute[@name='<name>']")]: the first child tagged
    [attribute] whose [name] attribute is [name]. *)
Definition find_attribute (elem : Element) (name : string) : option Element :=
  head (filter (λ c, tag c = "attribute" ∧ get c "name" = PyStr name) (children elem)).

(** [(elem.text or "").strip()] *)
Definition stripped_text (elem : Element) : string :=
  strip (default "" (text elem)).

(** [sub.text.strip() if sub is not None else ""]: [None.strip()] raises. *)
Definition text_or_empty (sub : option Element) : option string :=
  match sub with
  | Some e => strip <$> text e
  | None => Some ""
  end.

(** ** Configuration *)

Definition IGNORED_ATTRIBUTES : gset string :=
  {[ "sourcemodeldata"; "destinationmodeldata"; "id"; "idrefs"; "mappingnumber" ]}.
Definition CATEGORY_EXTRA : string := "extra in new.xml".
Definition CATEGORY_MISSING : string := "missing in new.xml while present in old.xml".
Definition CATEGORY_MISMATCH : string := "mismatching in old.xml and new.xml".
Definition TYPE_MISMATCH : string := "mismatch".
Definition TYPE_MISSING : string := "missing node".
Definition TYPE_EXTRA : string := "extra node".

(** ** Key resolver *)

(** An object key is a Python tuple of values. *)
Abbreviation ObjectKey := (list pyval).

Definition create_event_entity_mapping_key (elem : Element) : option ObjectKey :=
  let sourcename := find_attribute elem "sourcename" in
  let destinationname := find_attribute elem "destinationname" in
  let mappingtypename := find_attribute elem "mappingtypename" in
  s ← text_or_empty sourcename;
  d ← text_or_empty destinationname;
  m ← text_or_empty mappingtypename;
  Some [PyStr "XDDEVENTITYMAPPING"; PyStr s; PyStr d; PyStr m].

Definition create_attribute_or_relationship_mapping_key (elem : Element)
    : option ObjectKey :=
  let name_elem := find_attribute elem "name" in
  name_val ← text_or_empty name_elem;
  Some [get elem "type"; PyStr name_val].

Definition create_mapping_model_key (elem : Element) : option ObjectKey :=
  let sourcemodelpath := find_attribute elem "sourcemodelpath" in
  path_val ← text_or_empty sourcemodelpath;
  Some [PyStr "XDDEVMAPPINGMODEL"; PyStr path_val].

Definition get_object_key (elem : Element) : option ObjectKey :=
  let typ := get elem "type" in
  if decide (typ = PyStr "XDDEVENTITYMAPPING") then
    create_event_entity_mapping_key elem
  else if decide (typ = PyStr "XDDEVATTRIBUTEMAPPING"
                  ∨ typ = PyStr "XDDEVRELATIONSHIPMAPPING") then
    create_attribute_or_relationship_mapping_key elem
  else if decide (typ = PyStr "XDDEVMAPPINGMODEL") then
    create_mapping_model_key elem
  else Some [PyStr (tag elem)].

(** [str(key)] of a tuple. *)
Definition py_str_tuple (key : ObjectKey) : string :=
  match key with
  | [v] => "(" +:+ py_repr v +:+ ",)"
  | _ => "(" +:+ String.concat ", " (py_repr <$> key) +:+ ")"
  end.

(** [key[i]] raises [IndexError] out of range. *)
Definition format_object_key (key : ObjectKey) : option string :=
  k0 ← key !! 0;
  if decide (k0 = PyStr "XDDEVENTITYMAPPING") then
    k2 ← key !! 2;
    k3 ← key !! 3;
    Some ("destination name: " +:+ py_str k2 +:+ ", mappingTypename: " +:+ py_str k3)
  else if decide (k0 = PyStr "XDDEVATTRIBUTEMAPPING"
                  ∨ k0 = PyStr "XDDEVRELATIONSHIPMAPPING") then
    k1 ← key !! 1;
    Some ("name: " +:+ py_str k1)
  else if decide (k0 = PyStr "XDDEVMAPPINGMODEL") then
    k1 ← key !! 1;
    Some ("sourcemodelpath: " +:+ py_str k1)
  else Some (py_str_tuple key).


(** ** Diff records *)

(** The [diff_info] dictionary of a record: [category] and [path] are always
    there, the keys [old], [new], [value] and [type] only in some records
    ([None] for a key that is absent; [Some PyNone] for a key bound to
    Python's [None], as [old] and [new] of an attribute mismatch can be). *)
Record diff_info := mkInfo {
  d_category : string;
  d_path : string;
  d_old : option pyval;
  d_new : option pyval;
  d_value : option string;
  d_type : option string
}.

Global Instance diff_info_eq_dec : EqDecision diff_info.
Proof. solve_decision. Defined.

(** A record is the pair [(diff_type, diff_info)] that [append_diff] adds. *)
Abbreviation DiffRecord := (string * diff_info)%type.

Definition append_diff (diffs : list DiffRecord) (diff_type : string)
    (info : diff_info) : list DiffRecord :=
  diffs ++ [(diff_type, info)].

(** ** Formatting *)

Definition format_event_entity_mapping (elem : Element) : option string :=
  let dest := find_attribute elem "destinationname" in
  let mappingtypename := find_attribute elem "mappingtypename" in
  dest_val ← text_or_empty dest;
  mappingtypename_val ← text_or_empty mappingtypename;
  Some ("{ destination name: " +:+ dest_val +:+ ", mappingTypename: "
        +:+ mappingtypename_val +:+ " }").

Definition format_element (elem : Element) : option string :=
  if decide (tag elem = "object") then
    let typ := get elem "type" in
    if decide (typ = PyStr "XDDEVENTITYMAPPING") then
      format_event_entity_mapping elem
    else
      key ← get_object_key elem;
      fk ← format_object_key key;
      Some ("[" +:+ fk +:+ "]")
  else
    let text := stripped_text elem in
    Some (if decide (text = "") then tag elem
          else tag elem +:+ ": '" +:+ text +:+ "'").

Definition get_element_value (elem : Element) : string :=
  if decide (length (children elem) = 0) then stripped_text elem else "".

(** ** Node-level comparisons *)

(** [if value: diff_info["value"] = value] *)
Definition value_key (value : string) : option string :=
  if decide (value = "") then None else Some value.

Definition check_missing_nodes (old_elem new_elem : option Element)
    (path : string) : option (list DiffRecord * bool) :=
  match old_elem, new_elem with
  | None, None => Some ([], false)
  | None, Some new_elem =>
      formatted_elem ← format_element new_elem;
      let value := get_element_value new_elem in
      let info := mkInfo CATEGORY_EXTRA path None (Some (PyStr formatted_elem))
                         (value_key value) None in
      Some (append_diff [] TYPE_EXTRA info, false)
  | Some old_elem, None =>
      formatted_elem ← format_element old_elem;
      let value := get_element_value old_elem in
      let info := mkInfo CATEGORY_MISSING path (Some (PyStr formatted_elem)) None
                         (value_key value) None in
      Some (append_diff [] TYPE_MISSING info, false)
  | Some _, Some _ => Some ([], true)
  end.

Definition compare_tags (old_elem new_elem : Element) (path : string)
    : list DiffRecord :=
  if decide (tag old_elem ≠ tag new_elem) then
    append_diff [] TYPE_MISMATCH
      (mkInfo CATEGORY_MISMATCH (path +:+ " tag")
              (Some (PyStr (tag old_elem))) (Some (PyStr (tag new_elem)))
              None (Some "tag"))
  else [].

Definition compare_text (old_elem new_elem : Element) (path : string)
    : list DiffRecord :=
  if decide (tag old_elem = "attribute" ∧ get old_elem "name" = PyStr "mappingnumber")
  then []
  else
    let text_old := stripped_text old_elem in
    let text_new := stripped_text new_elem in
    if decide (text_old ≠ text_new) then
      append_diff [] TYPE_MISMATCH
        (mkInfo CATEGORY_MISMATCH (path +:+ " text")
                (Some (PyStr text_old)) (Some (PyStr text_new)) None (Some "text"))
    else [].

Definition compare_attributes (old_elem new_elem : Element) (path : string)
    : list DiffRecord :=
  let all_attrs := dom (attrib old_elem) ∪ dom (attrib new_elem) in
  flat_map
    (λ attr,
       let val_old := get old_elem attr in
       let val_new := get new_elem attr in
       if decide (val_old ≠ val_new) then
         append_diff [] TYPE_MISMATCH
           (mkInfo CATEGORY_MISMATCH (path +:+ " attribute '" +:+ attr +:+ "'")
                   (Some val_old) (Some val_new) None (Some "attribute"))
       else [])
    (filter (λ x, x ∉ IGNORED_ATTRIBUTES) (elements all_attrs)).

(** ** Loops that extend the list of records *)

(** [for x in xs: diffs.extend(f(x))], where [f] may raise. *)
Fixpoint for_each {A} (f : A → option (list DiffRecord)) (xs : list A)
    : option (list DiffRecord) :=
  match xs with
  | [] => Some []
  | x :: xs =>
      ds ← f x;
      rest ← for_each f xs;
      Some (ds ++ rest)
  end.

(** ** Set-of-strings strategy *)

(** [l.index(k)]: the first position of [k]; raises [ValueError] when [k]
    is not in [l]. *)
Definition py_index (k : string) (l : list string) : option nat :=
  fst <$> list_find (λ x, x = k) l.

Definition handle_plist_keys (old_list new_list : list Element)
    (path tag : string) : option (list DiffRecord) :=
  let old_keys := stripped_text <$> old_list in
  let new_keys := stripped_text <$> new_list in
  if decide (list_to_set old_keys =@{gset string} list_to_set new_keys) then Some []
  else
    let missing := filter (λ k, k ∉ new_keys) old_keys in
    let extra := filter (λ k, k ∉ old_keys) new_keys in
    if decide (length missing = 1 ∧ length extra = 1) then
      m ← missing !! 0;
      e ← extra !! 0;
      index ← py_index m old_keys;
      let subpath := path +:+ "." +:+ tag +:+ "[" +:+ pretty index +:+ "]" in
      Some (append_diff [] TYPE_MISMATCH
              (mkInfo CATEGORY_MISMATCH (subpath +:+ " text")
                      (Some (PyStr m)) (Some (PyStr e)) None (Some "text")))
    else
      missing_diffs ←
        for_each (λ k,
            index ← py_index k old_keys;
            let subpath := path +:+ "." +:+ tag +:+ "[" +:+ pretty index +:+ "]" in
            Some (append_diff [] TYPE_MISSING
                    (mkInfo CATEGORY_MISSING (subpath +:+ " text")
                            (Some (PyStr k)) None (Some k) None)))
          missing;
      extra_diffs ←
        for_each (λ k,
            index ← py_index k new_keys;
            let subpath := path +:+ "." +:+ tag +:+ "[" +:+ pretty index +:+ "]" in
            Some (append_diff [] TYPE_EXTRA
                    (mkInfo CATEGORY_EXTRA (subpath +:+ " text")
                            None (Some (PyStr k)) (Some k) None)))
          extra;
      Some (missing_diffs ++ extra_diffs).

(** ** Dispatcher and comparator *)

Definition filter_children (children : list Element) : list Element :=
  let ignored_names : gset pyval :=
    {[ PyStr "sourcemodeldata"; PyStr "destinationmodeldata"; PyStr "mappingnumber" ]} in
  filter
    (λ child, ¬ (tag child = "attribute" ∧ get child "name" ∈ ignored_names))
    children.

(** [groups.setdefault(element.tag, []).append(element)] for every element. *)
Definition group_by_tag (elements : list Element) : gmap string (list Element) :=
  foldl
    (λ groups element,
       <[tag element := default [] (groups !! tag element) ++ [element]]> groups)
    ∅ elements.

(** [{get_object_key(child): child for child in l}]: a later child replaces
    an earlier one under the same key; a key that cannot be derived raises. *)
Definition key_dict (l : list Element) : option (gmap ObjectKey Element) :=
  foldl
    (λ acc child,
       d ← acc;
       key ← get_object_key child;
       Some (<[key := child]> d))
    (Some ∅) l.

Section dispatcher.
(** The comparator the strategies recurse into. *)
Variable diff_elements :
  option Element → option Element → string → option (list DiffRecord).

Definition handle_object_nodes (old_list new_list : list Element)
    (path : string) : option (list DiffRecord) :=
  dict_old ← key_dict old_list;
  dict_new ← key_dict new_list;
  for_each
    (λ key,
       fk ← format_object_key key;
       let subpath := path +:+ ".object[" +:+ fk +:+ "]" in
       let child_old := dict_old !! key in
       let child_new := dict_new !! key in
       match child_old, child_new with
       | None, None => None
       | None, Some child_new =>
           formatted ← format_element child_new;
           Some (append_diff [] TYPE_EXTRA
                   (mkInfo CATEGORY_EXTRA subpath None (Some (PyStr formatted))
                           None None))
       | Some child_old, None =>
           formatted ← format_element child_old;
           Some (append_diff [] TYPE_MISSING
                   (mkInfo CATEGORY_MISSING subpath (Some (PyStr formatted)) None
                           None None))
       | Some _, Some _ => diff_elements child_old child_new subpath
       end)
    (elements (dom dict_old ∪ dom dict_new)).

Definition handle_default_children (old_list new_list : list Element)
    (path tag : string) : option (list DiffRecord) :=
  let max_len := length old_list `max` length new_list in
  for_each
    (λ i,
       let subpath :=
         if decide (max_len = 1) then path +:+ "." +:+ tag
         else path +:+ "." +:+ tag +:+ "[" +:+ pretty i +:+ "]" in
       let child_old := old_list !! i in
       let child_new := new_list !! i in
       diff_elements child_old child_new subpath)
    (seq 0 max_len).

Definition diff_children (old_children new_children : list Element)
    (path : string) : option (list DiffRecord) :=
  let old_children := filter_children old_children in
  let new_children := filter_children new_children in
  let groups_old := group_by_tag old_children in
  let groups_new := group_by_tag new_children in
  for_each
    (λ tag,
       let old_list := default [] (groups_old !! tag) in
       let new_list := default [] (groups_new !! tag) in
       if decide (tag = "key" ∧ str_contains ".plist.dict" path) then
         handle_plist_keys old_list new_list path tag
       else if decide (tag = "object") then
         handle_object_nodes old_list new_list path
       else
         handle_default_children old_list new_list path tag)
    (elements (dom groups_old ∪ dom groups_new)).

(** The body of [diff_elements], its recursive calls left to the
    strategies above. [compare_tags(None, _)] would raise; that branch is
    not reached, since [both_present] holds for two present nodes only. *)
Definition diff_elements_body (old_elem new_elem : option Element)
    (path : string) : option (list DiffRecord) :=
  '(missing_diffs, both_present) ← check_missing_nodes old_elem new_elem path;
  if negb both_present then Some missing_diffs
  else
    match old_elem, new_elem with
    | Some old_elem, Some new_elem =>
        let tag_diffs := compare_tags old_elem new_elem path in
        if decide (tag_diffs ≠ []) then Some (missing_diffs ++ tag_diffs)
        else
          let text_diffs := compare_text old_elem new_elem path in
          let attr_diffs := compare_attributes old_elem new_elem path in
          child_diffs ← diff_children (children old_elem) (children new_elem) path;
          Some (missing_diffs ++ text_diffs ++ attr_diffs ++ child_diffs)
    | _, _ => None
    end.
End dispatcher.

(** The recursion of [diff_elements] descends into the children of the old
    node: the body is unrolled once per level of the old tree, which is as
    deep as the recursion goes ([diff_elements_unfold] below is the equation
    of the source function). *)
Fixpoint diff_elements_upto (depth : nat)
    : option Element → option Element → string → option (list DiffRecord) :=
  match depth with
  | 0 => λ _ _ _, None
  | S depth => diff_elements_body (diff_elements_upto depth)
  end.

Fixpoint height (elem : Element) : nat :=
  S (foldr max 0 (map height (children elem))).

Definition diff_elements (old_elem new_elem : option Element) (path : string)
    : option (list DiffRecord) :=
  diff_elements_upto (S (from_option height 0 old_elem)) old_elem new_elem path.

(** ** Reporting *)

(** [s.replace(old, new)] for a non-empty [old]: occurrences are replaced
    from the left and do not overlap; [skip] counts the characters of a
    replaced occurrence still to pass over. *)
Fixpoint str_replace_from (skip : nat) (old new s : string) : string :=
  match s with
  | EmptyString => EmptyString
  | String c s' =>
      match skip with
      | S k => str_replace_from k old new s'
      | 0 =>
          if String.prefix old s
          then new +:+ str_replace_from (String.length old - 1) old new s'
          else String c (str_replace_from 0 old new s')
      end
  end.

Definition str_replace (old new s : string) : string := str_replace_from 0 old new s.

(** [s.endswith(suffix)] *)
Definition str_endswith (s suffix : string) : bool :=
  String.prefix (String.rev suffix) (String.rev s).

(** [s[:-1]] *)
Definition str_drop_last (s : string) : string :=
  String.substring 0 (String.length s - 1) s.

Definition normalize_path (path : string) : string :=
  if str_contains "object[" path then
    let path := str_replace "object[" "object.{" path in
    if str_endswith path "]" then str_drop_last path +:+ "}" else path
  else path.

(** ** Sample nodes *)

(** [<tag>text</tag>] *)
Definition leaf (t : string) (x : string) : Element := mkElement t ∅ (Some x) [].

(** [<attribute name="name">text</attribute>], or the empty element
    [<attribute name="name"/>] when there is no text. *)
Definition attribute_node (name : string) (x : option string) : Element :=
  mkElement "attribute" {[ "name" := name ]} x [].

(** [<object type="typ">...</object>] *)
Definition object_node (typ : string) (cs : list Element) : Element :=
  mkElement "object" {[ "type" := typ ]} None cs.

(** [<database>...</database>] *)
Definition database (cs : list Element) : Element := mkElement "database" ∅ None cs.

(** ** Nodes whose keys can be derived *)

(** Every [object] below [elem] has a key: no sub-field that its key reads
    is an element without text. *)
Fixpoint keys_defined (elem : Element) : bool :=
  forallb
    (λ c, bool_decide (tag c = "object" → is_Some (get_object_key c))
          && keys_defined c)
    (children elem).

(** [<object type="XDDEVMAPPINGMODEL"><attribute name="sourcemodelpath"/></object>]:
    a mapping model whose path sub-field is an empty element. *)
Definition empty_path_model : Element :=
  object_node "XDDEVMAPPINGMODEL" [attribute_node "sourcemodelpath" None].

(** An entity mapping whose [sourcename] sub-field is an empty element. *)
Definition empty_source_mapping : Element :=
  object_node "XDDEVENTITYMAPPING"
    [attribute_node "sourcename" None; attribute_node "destinationname" (Some "Account")].

(** An attribute mapping whose [name] sub-field is an empty element. *)
Definition empty_name_mapping : Element :=
  object_node "XDDEVATTRIBUTEMAPPING" [attribute_node "name" None].

(** An attribute mapping named [name], with further children. *)
Definition attribute_mapping (name : string) (cs : list Element) : Element :=
  object_node "XDDEVATTRIBUTEMAPPING" (attribute_node "name" (Some name) :: cs).

(** The sub-fields that the key of an object of type [typ] reads. *)
Definition key_fields (typ : pyval) : list string :=
  if decide (typ = PyStr "XDDEVENTITYMAPPING") then
    ["sourcename"; "destinationname"; "mappingtypename"]
  else if decide (typ = PyStr "XDDEVATTRIBUTEMAPPING"
                  ∨ typ = PyStr "XDDEVRELATIONSHIPMAPPING") then ["name"]
  else if decide (typ = PyStr "XDDEVMAPPINGMODEL") then ["sourcemodelpath"]
  else [].

(** ** Trees that the comparator does not tell apart *)

Definition objects (l : list Element) : list Element :=
  filter (λ e, tag e = "object") l.

Definition non_objects (l : list Element) : list Element :=
  filter (λ e, tag e ≠ "object") l.

(** Two trees of the same shape: at every node the tags and texts are
    equal, the attributes are related by [RA], and the children of the
    second are those of the first, related in turn, and then rearranged as
    [L] allows. *)
#[local] Unset Elimination Schemes.
Inductive related (RA : relation (gmap string string))
    (L : relation (list Element)) : Element → Element → Prop :=
  | related_node t a a' x cs cs0 cs' :
      RA a a' →
      Forall2 (related RA L) cs cs0 →
      L cs0 cs' →
      related RA L (mkElement t a x cs) (mkElement t a' x cs').
#[local] Set Elimination Schemes.

(** The same attribute names, and the same values except for the ignored
    attributes. *)
Definition ignored_agree (a a' : gmap string string) : Prop :=
  dom a = dom a' ∧ ∀ k, k ∉ IGNORED_ATTRIBUTES → a !! k = a' !! k.

(** [T'] is [T] up to the values of ignored attributes. *)
Definition same_but_ignored : Element → Element → Prop :=
  related ignored_agree eq.

(** [set_attribute_at pos name value elem]: the tree [elem] with the value
    of the attribute [name] replaced by [value] on the node reached by the
    child indices [pos]; [None] when there is no such node or the node has
    no such attribute. *)
Fixpoint set_attribute_at (pos : list nat) (name value : string)
    (elem : Element) : option Element :=
  match pos with
  | [] =>
      if decide (is_Some (attrib elem !! name)) then
        Some (mkElement (tag elem) (<[name := value]> (attrib elem))
                        (text elem) (children elem))
      else None
  | i :: pos =>
      c ← children elem !! i;
      c' ← set_attribute_at pos name value c;
      Some (mkElement (tag elem) (attrib elem) (text elem)
                      (<[i := c']> (children elem)))
  end.

(** [l'] rearranges the [object] children of [l]: the other children keep
    their order. *)
Definition object_reordering (l l' : list Element) : Prop :=
  non_objects l = non_objects l' ∧ objects l ≡ₚ objects l'.

(** A rearrangement of [object] children whose keys are pairwise distinct
    (or no rearrangement at all). *)
Definition distinct_reordering (l l' : list Element) : Prop :=
  l = l' ∨ (object_reordering l l' ∧ NoDup (get_object_key <$> objects l)).

(** [T'] is [T] with the [object] children of some of its nodes rearranged,
    the keys of rearranged siblings being pairwise distinct. *)
Definition reordered : Element → Element → Prop :=
  related eq distinct_reordering.

(** A run that raises or returns no record. *)
Definition quiet (r : option (list DiffRecord)) : Prop :=
  ∀ ds, r = Some ds → ds = [].

(** The same outcome up to the order of the records: both runs raise, or
    both return the same records. *)
Definition same_records (r r' : option (list DiffRecord)) : Prop :=
  option_Forall2 (≡ₚ) r r'.

(** ** Exchanging the two sides *)









(** The key texts of one side that do not occur on the other side. *)
Definition removed (old_keys new_keys : list string) : list string :=
  filter (λ k, k ∉ new_keys) old_keys.

(** When [new_keys] renames one key of [old_keys], the new name is where
    the old one was. *)
Definition rename_in_place (old_keys new_keys : list string) : Prop :=
  match removed old_keys new_keys, removed new_keys old_keys with
  | [m], [e] => py_index m old_keys = py_index e new_keys
  | _, _ => True
  end.

Global Instance rename_in_place_dec old_keys new_keys :
  Decision (rename_in_place old_keys new_keys).
Proof.
  unfold rename_in_place.
  destruct (removed old_keys new_keys) as [|m [|]]; try apply _.
  destruct (removed new_keys old_keys) as [|e [|]]; apply _.
Defined.

(** [<database><plist><dict>...</dict></plist></database>] *)
Definition plist_dict (cs : list Element) : Element :=
  database [mkElement "plist" ∅ None [mkElement "dict" ∅ None cs]].

(** A document with two attribute mappings around a note, and the same
    document with the two mappings exchanged. *)
Definition two_mappings : Element :=
  database [attribute_mapping "x" [attribute_node "kind" (Some "1")];
            leaf "note" "n";
            attribute_mapping "y" []].

Definition two_mappings_exchanged : Element :=
  database [attribute_mapping "y" [];
            leaf "note" "n";
            attribute_mapping "x" [attribute_node "kind" (Some "1")]].

Definition one_mapping : Element :=
  database [attribute_mapping "x" [attribute_node "kind" (Some "2")]].

(** An entity with a volatile identifier. *)
Definition entity_node (id : string) : Element :=
  mkElement "entity" {[ "id" := id; "name" := "Account" ]} None [].

(** ** The report *)

(** The output of the reporter is the list of the texts printed, one per
    call of [print]; a line feed inside a text is part of it. A function
    that raises returns [None], whatever it printed before. *)
Definition LF : string := String (Ascii.ascii_of_nat 10) "".

(** [sorted(l, key=key)] for string keys. Python's sort is stable: the
    result is the arrangement of [l] in ascending order of the keys in which
    elements of equal key keep their order. Strings are compared byte by
    byte, which is the order of the code points they encode. *)
Fixpoint sorted_insert {A} (key : A → string) (x : A) (l : list A) : list A :=
  match l with
  | [] => [x]
  | y :: l' =>
      if String.leb (key x) (key y) then x :: y :: l'
      else y :: sorted_insert key x l'
  end.

Definition py_sorted {A} (key : A → string) (l : list A) : list A :=
  foldr (sorted_insert key) [] l.

(** [f"{len(messages)} occurrence{'s' if len(messages) != 1 else ''}"] *)
Definition occurrences (messages : list diff_info) : string :=
  pretty (length messages) +:+ " occurrence"
  +:+ (if decide (length messages ≠ 1) then "s" else "").

(** [msg['old']] and [msg['new']] raise [KeyError] when the key is absent. *)
Definition print_mismatches (messages : list diff_info) : option (list string) :=
  body ← mapM (λ msg,
             old ← d_old msg;
             new ← d_new msg;
             Some ["Path: " +:+ d_path msg;
                   "  old = " +:+ py_str old;
                   "  new = " +:+ py_str new +:+ LF])
           messages;
  Some ([LF +:+ "=== MISMATCH (" +:+ occurrences messages +:+ ") ===";
         "Category: mismatching in old.xml and new.xml" +:+ LF]
        ++ concat body).

(** [if "value" in msg and msg["value"]: print(f"  <side> = {msg['value']}")] *)
Definition value_line (side : string) (msg : diff_info) : list string :=
  match d_value msg with
  | Some value => if decide (value ≠ "") then ["  " +:+ side +:+ " = " +:+ value] else []
  | None => []
  end.

(** [messages[0]] raises [IndexError] on an empty list. *)
Definition print_missing_nodes (messages : list diff_info) : option (list string) :=
  first ← messages !! 0;
  let sorted_msgs := py_sorted (λ m, normalize_path (d_path m)) messages in
  Some ([LF +:+ "=== MISSING NODE (" +:+ occurrences messages +:+ ") ===";
         "Category: " +:+ d_category first +:+ LF]
        ++ flat_map
             (λ msg, ["Path: " +:+ normalize_path (d_path msg)]
                     ++ value_line "old" msg ++ [""])
             sorted_msgs).

Definition print_extra_nodes (messages : list diff_info) : option (list string) :=
  first ← messages !! 0;
  let sorted_msgs := py_sorted (λ m, normalize_path (d_path m)) messages in
  Some ([LF +:+ "=== EXTRA NODE (" +:+ occurrences messages +:+ ") ===";
         "Category: " +:+ d_category first +:+ LF]
        ++ flat_map
             (λ msg, ["Path: " +:+ normalize_path (d_path msg)]
                     ++ value_line "new" msg ++ [""])
             sorted_msgs).

(** [error_dict[err_type].append(msg)] for every record, on a
    [defaultdict(list)]. *)
Definition group_by_type (diffs : list DiffRecord) : gmap string (list diff_info) :=
  foldl
    (λ error_dict (d : DiffRecord),
       <[d.1 := default [] (error_dict !! d.1) ++ [d.2]]> error_dict)
    ∅ diffs.

Section reporter.
(** [str(msg)] of a record's dictionary and [err_type.upper()]: read by
    [print_other_diffs] only, which prints the records of a type other
    than the three that the comparator emits. *)
Variable py_str_info : diff_info → string.
Variable py_upper : string → string.

Definition print_other_diffs (err_type : string) (messages : list diff_info)
    : option (list string) :=
  Some ((LF +:+ "=== " +:+ py_upper err_type +:+ " (" +:+ occurrences messages
         +:+ ") ===")
        :: flat_map (λ msg, [py_str_info msg; ""]) messages).

Definition print_differences (diffs : list DiffRecord) : option (list string) :=
  if decide (diffs = []) then Some ["No differences found."]
  else
    let error_dict := group_by_type diffs in
    sections ←
      mapM (λ err_type,
              let messages := default [] (error_dict !! err_type) in
              if decide (err_type = TYPE_MISMATCH) then print_mismatches messages
              else if decide (err_type = TYPE_MISSING) then print_missing_nodes messages
              else if decide (err_type = TYPE_EXTRA) then print_extra_nodes messages
              else print_other_diffs err_type messages)
           (py_sorted id (elements (dom error_dict)));
    Some ((LF +:+ "Differences found (grouped by error type):") :: concat sections).

(** [main], from the two parsed roots on: the comparison starts at the
    path [root_old.tag], and its records are printed. Reading and parsing
    [old.xml] and [new.xml] is left out. *)
Definition main (root_old root_new : Element) : option (list string) :=
  diffs ← diff_elements (Some root_old) (Some root_new) (tag root_old);
  print_differences diffs.
End reporter.

(** The records of one type, in the order of the list. *)
Definition messages_of (err_type : string) (diffs : list DiffRecord)
    : list diff_info :=
  snd <$> filter (λ d : DiffRecord, d.1 = err_type) diffs.

(** The section of the report of one type: nothing when there is no record
    of that type. *)
Definition report_section (print : list diff_info → option (list string))
    (messages : list diff_info) : option (list string) :=
  if decide (messages = []) then Some [] else print messages.

(** ** Shapes of records *)

(** A mismatch carries both sides and a subtype, and no value. *)
Definition mismatch_record (d : DiffRecord) : Prop :=
  d.1 = TYPE_MISMATCH ∧ d_category d.2 = CATEGORY_MISMATCH
  ∧ is_Some (d_old d.2) ∧ is_Some (d_new d.2) ∧ d_value d.2 = None
  ∧ d_type d.2 ∈ [Some "tag"; Some "text"; Some "attribute"].

(** A missing node carries a description of the old side only. *)
Definition missing_record (d : DiffRecord) : Prop :=
  d.1 = TYPE_MISSING ∧ d_category d.2 = CATEGORY_MISSING
  ∧ (∃ s, d_old d.2 = Some (PyStr s)) ∧ d_new d.2 = None ∧ d_type d.2 = None.

(** An extra node carries a description of the new side only. *)
Definition extra_record (d : DiffRecord) : Prop :=
  d.1 = TYPE_EXTRA ∧ d_category d.2 = CATEGORY_EXTRA
  ∧ d_old d.2 = None ∧ (∃ s, d_new d.2 = Some (PyStr s)) ∧ d_type d.2 = None.

Definition well_formed (d : DiffRecord) : Prop :=
  mismatch_record d ∨ missing_record d ∨ extra_record d.

(** The path of a record extends [path]. *)
Definition below (path : string) (d : DiffRecord) : Prop :=
  ∃ rest, d_path d.2 = path +:+ rest.

(** ** White space *)

Fixpoint all_space (s : string) : bool :=
  match s with
  | EmptyString => true
  | String c s' => is_py_space c && all_space s'
  end.

(** The tree with every text trimmed. *)
Fixpoint strip_texts (elem : Element) : Element :=
  mkElement (tag elem) (attrib elem) (strip <$> text elem)
            (map strip_texts (children elem)).

(** ** Children that the dispatcher drops *)

Definition ignored_child (c : Element) : Prop :=
  tag c = "attribute"
  ∧ get c "name" ∈ ({[ PyStr "sourcemodeldata"; PyStr "destinationmodeldata";
                       PyStr "mappingnumber" ]} : gset pyval).

(** [i] is the first position of [k] in [l]. *)
Definition first_position (k : string) (l : list string) (i : nat) : Prop :=
  l !! i = Some k ∧ ∀ j, j < i → l !! j ≠ Some k.

(** The children of [l] in groups: only the order of the children of one
    tag among themselves is kept. *)
Definition same_groups (l l' : list Element) : Prop :=
  ∀ t, filter (λ e, tag e = t) l = filter (λ e, tag e = t) l'.

(** The path of the child at index [i] of a positional group of [n]
    children. *)
Definition child_path (path tag : string) (n i : nat) : string :=
  if decide (n = 1) then path +:+ "." +:+ tag
  else path +:+ "." +:+ tag +:+ "[" +:+ pretty i +:+ "]".

(** Two lists of children that differ only in [key] children, and there
    only in what is not the trimmed text. *)
Definition same_key_texts (l l' : list Element) : Prop :=
  Forall2
    (λ c c', (tag c = "key" ∧ tag c' = "key" ∧ stripped_text c = stripped_text c')
             ∨ c = c')
    l l'.

(** * Properties *)

(** ** Induction on nodes *)

Lemma Element_ind (P : Element → Prop) :
  (∀ t a x cs, Forall P cs → P (mkElement t a x cs)) → ∀ e, P e.
Proof.
  intros IH. fix rec 1. intros [t a x cs]. apply IH.
  induction cs as [|c cs IHcs]; constructor; [apply rec | exact IHcs].
Qed.

Lemma height_child (o c : Element) : c ∈ children o → height c < height o.
Proof.
  destruct o as [t a x cs]; simpl. intros Hc.
  induction cs as [|d cs IH]; [by apply elem_of_nil in Hc|].
  apply elem_of_cons in Hc as [->|Hc]; simpl in *; [lia|].
  specialize (IH Hc). lia.
Qed.

(** ** Loops *)

Lemma for_each_ext {A} (f g : A → option (list DiffRecord)) xs :
  (∀ x, x ∈ xs → f x = g x) → for_each f xs = for_each g xs.
Proof.
  induction xs as [|x xs IH]; intros Hfg; [done|]. simpl.
  rewrite (Hfg x) by left. rewrite IH; [done|].
  intros y Hy. apply Hfg. by right.
Qed.

Lemma for_each_nil_all {A} (f : A → option (list DiffRecord)) xs :
  (∀ x, x ∈ xs → f x = Some []) → for_each f xs = Some [].
Proof.
  induction xs as [|x xs IH]; intros Hf; [done|]. simpl.
  rewrite (Hf x) by left. simpl. rewrite IH; [done|].
  intros y Hy. apply Hf. by right.
Qed.

Lemma for_each_app {A} (f : A → option (list DiffRecord)) xs ys :
  for_each f (xs ++ ys) =
  ds ← for_each f xs; es ← for_each f ys; Some (ds ++ es).
Proof.
  induction xs as [|x xs IH]; simpl.
  - destruct (for_each f ys); done.
  - destruct (f x) as [d|]; simpl; [|done]. rewrite IH.
    destruct (for_each f xs) as [ds|]; simpl; [|done].
    destruct (for_each f ys) as [es|]; simpl; [|done].
    by rewrite (assoc_L (++)).
Qed.

(** ** Grouping by tag *)

Lemma group_by_tag_snoc l e :
  group_by_tag (l ++ [e]) =
  <[tag e := default [] (group_by_tag l !! tag e) ++ [e]]> (group_by_tag l).
Proof. unfold group_by_tag. by rewrite foldl_snoc. Qed.

Lemma group_by_tag_lookup l t :
  group_by_tag l !! t =
  let g := filter (λ e, tag e = t) l in if decide (g = []) then None else Some g.
Proof.
  induction l as [|e l IH] using rev_ind; [done|].
  rewrite group_by_tag_snoc, filter_app. cbn zeta in *.
  destruct (decide (tag e = t)) as [Heq|Hne].
  - rewrite Heq, lookup_insert_eq, IH.
    rewrite filter_cons_True, filter_nil by done.
    rewrite (decide_False (P := _ ++ [e] = [])) by (by intros [_ ?]%app_eq_nil).
    by case_decide as Hg; [rewrite Hg|].
  - rewrite lookup_insert_ne, IH by done.
    rewrite filter_cons_False, filter_nil, (right_id_L [] (++)) by done. done.
Qed.

Lemma group_by_tag_default l t :
  default [] (group_by_tag l !! t) = filter (λ e, tag e = t) l.
Proof. rewrite group_by_tag_lookup. cbn zeta. by case_decide as Hg; [rewrite Hg|]. Qed.

Lemma elem_of_dom_group_by_tag l t :
  t ∈ dom (group_by_tag l) ↔ ∃ e, e ∈ l ∧ tag e = t.
Proof.
  rewrite elem_of_dom, group_by_tag_lookup. cbn zeta. split.
  - case_decide as Hg; [by intros []|]. intros _.
    destruct (filter _ l) as [|e g] eqn:Hf; [done|].
    assert (e ∈ filter (λ e, tag e = t) l) as He by (rewrite Hf; left).
    apply list_elem_of_filter in He as [? ?]. eauto.
  - intros (e & He & Ht). rewrite decide_False; [done|].
    intros Hg. assert (e ∈ filter (λ e, tag e = t) l) as He'
      by (by apply list_elem_of_filter).
    rewrite Hg in He'. by apply elem_of_nil in He'.
Qed.

(** ** The dictionary of keys *)

Lemma key_dict_snoc l c :
  key_dict (l ++ [c]) =
  d ← key_dict l; key ← get_object_key c; Some (<[key := c]> d).
Proof. unfold key_dict. by rewrite foldl_snoc. Qed.

Lemma key_dict_lookup_elem l d k c :
  key_dict l = Some d → d !! k = Some c → c ∈ l ∧ get_object_key c = Some k.
Proof.
  revert d. induction l as [|e l IH] using rev_ind; intros d.
  - intros [= <-]. by rewrite lookup_empty.
  - rewrite key_dict_snoc. destruct (key_dict l) as [d'|]; [|done]. simpl.
    destruct (get_object_key e) as [ke|] eqn:Hke; [|done]. simpl.
    intros [= <-]. rewrite lookup_insert. case_decide as Hk.
    + intros [= <-]. subst. split; [apply elem_of_app; right; left | done].
    + intros Hc. destruct (IH d' eq_refl Hc). split; [|done].
      apply elem_of_app. by left.
Qed.

Lemma key_dict_lookup l d k :
  key_dict l = Some d →
  d !! k = last (filter (λ c, get_object_key c = Some k) l).
Proof.
  revert d. induction l as [|e l IH] using rev_ind; intros d.
  - intros [= <-]. by rewrite lookup_empty.
  - rewrite key_dict_snoc. destruct (key_dict l) as [d'|]; [|done]. simpl.
    destruct (get_object_key e) as [ke|] eqn:Hke; [|done]. simpl.
    intros [= <-]. rewrite filter_app, lookup_insert. case_decide as Hk.
    + subst ke. rewrite filter_cons_True, filter_nil by done. by rewrite last_snoc.
    + rewrite filter_cons_False, filter_nil, (right_id_L [] (++)) by congruence.
      by apply IH.
Qed.

Lemma key_dict_is_Some l :
  is_Some (key_dict l) ↔ Forall (λ c, is_Some (get_object_key c)) l.
Proof.
  induction l as [|e l IH] using rev_ind.
  - split; [constructor | by eexists].
  - rewrite key_dict_snoc, Forall_app, Forall_singleton, <- IH.
    destruct (key_dict l) as [d|]; simpl.
    + destruct (get_object_key e); simpl; split.
      * by eauto.
      * by eauto.
      * by intros [].
      * by intros [_ []].
    + split; [by intros [] | by intros [[] _]].
Qed.

(** ** The comparator is the fixed point of its body *)

Lemma handle_object_nodes_ext rec1 rec2 old_list new_list path :
  (∀ c cn p, c ∈ old_list → rec1 (Some c) cn p = rec2 (Some c) cn p) →
  handle_object_nodes rec1 old_list new_list path =
  handle_object_nodes rec2 old_list new_list path.
Proof.
  intros Hrec. unfold handle_object_nodes.
  destruct (key_dict old_list) as [dict_old|] eqn:Hold; [|done]. simpl.
  destruct (key_dict new_list) as [dict_new|]; [|done]. simpl.
  apply for_each_ext. intros key _.
  destruct (format_object_key key); [|done]. simpl.
  destruct (dict_old !! key) as [c|] eqn:Hc; [|done].
  destruct (dict_new !! key); [|done].
  apply Hrec. by eapply key_dict_lookup_elem.
Qed.

Lemma handle_default_children_ext rec1 rec2 old_list new_list path tag :
  (∀ co cn p, (∀ c, co = Some c → c ∈ old_list) → rec1 co cn p = rec2 co cn p) →
  handle_default_children rec1 old_list new_list path tag =
  handle_default_children rec2 old_list new_list path tag.
Proof.
  intros Hrec. unfold handle_default_children.
  apply for_each_ext. intros i _. apply Hrec.
  intros c Hc. by eapply list_elem_of_lookup_2.
Qed.

Lemma filter_children_elem c l : c ∈ filter_children l → c ∈ l.
Proof. unfold filter_children. by intros [_ ?]%list_elem_of_filter. Qed.

Lemma diff_children_ext rec1 rec2 old_children new_children path :
  (∀ co cn p, (∀ c, co = Some c → c ∈ old_children) →
              rec1 co cn p = rec2 co cn p) →
  diff_children rec1 old_children new_children path =
  diff_children rec2 old_children new_children path.
Proof.
  intros Hrec. unfold diff_children.
  apply for_each_ext. intros t _. rewrite !group_by_tag_default.
  assert (∀ c, c ∈ filter (λ e, tag e = t) (filter_children old_children) →
               c ∈ old_children) as Hin.
  { intros c [_ Hc]%list_elem_of_filter. by apply filter_children_elem. }
  repeat case_decide; [done| |].
  - apply handle_object_nodes_ext. intros c cn p Hc. apply Hrec.
    intros ? [= <-]. by apply Hin.
  - apply handle_default_children_ext. intros co cn p Hco. apply Hrec.
    intros c ->. by apply Hin, Hco.
Qed.

Lemma diff_elements_body_ext rec1 rec2 old_elem new_elem path :
  (∀ o co cn p, old_elem = Some o → (∀ c, co = Some c → c ∈ children o) →
                rec1 co cn p = rec2 co cn p) →
  diff_elements_body rec1 old_elem new_elem path =
  diff_elements_body rec2 old_elem new_elem path.
Proof.
  intros Hrec. unfold diff_elements_body.
  destruct (check_missing_nodes _ _ _) as [[missing_diffs both_present]|]; [|done].
  simpl. destruct both_present; [|done]. simpl.
  destruct old_elem as [o|], new_elem as [n|]; try done.
  case_decide; [done|].
  rewrite (diff_children_ext rec1 rec2); [done|].
  intros co cn p Hco. by eapply Hrec.
Qed.

Lemma diff_elements_upto_stable n m old_elem new_elem path :
  from_option height 0 old_elem < n → from_option height 0 old_elem < m →
  diff_elements_upto n old_elem new_elem path =
  diff_elements_upto m old_elem new_elem path.
Proof.
  revert m old_elem new_elem path.
  induction n as [|n IH]; intros [|m] old_elem new_elem path Hn Hm; try lia.
  simpl. apply diff_elements_body_ext.
  intros o co cn p -> Hco. simpl in Hn, Hm.
  assert (from_option height 0 co < height o) as Hlt.
  { destruct co as [c|]; simpl.
    - by apply height_child, Hco.
    - destruct o; simpl; lia. }
  apply IH; lia.
Qed.

(** The unfolding equation of [diff_elements]: the function of the source. *)
Lemma diff_elements_unfold old_elem new_elem path :
  diff_elements old_elem new_elem path =
  diff_elements_body diff_elements old_elem new_elem path.
Proof.
  unfold diff_elements at 1. simpl. apply diff_elements_body_ext.
  intros o co cn p -> Hco. simpl. unfold diff_elements.
  assert (from_option height 0 co < height o) as Hlt.
  { destruct co as [c|]; simpl.
    - by apply height_child, Hco.
    - destruct o; simpl; lia. }
  apply diff_elements_upto_stable; lia.
Qed.

(** ** The set-of-strings strategy *)

Lemma py_index_elem_of k l : k ∈ l → is_Some (py_index k l).
Proof.
  intros Hk. unfold py_index.
  destruct (list_find_elem_of (λ x, x = k) l k Hk eq_refl) as [[i x] ->].
  by eexists.
Qed.


Lemma for_each_singletons {A} (f : A → option (list DiffRecord)) xs :
  (∀ x, x ∈ xs → ∃ d, f x = Some [d]) →
  ∃ ds, for_each f xs = Some ds ∧ length ds = length xs.
Proof.
  induction xs as [|x xs IH]; intros Hf; [by exists []|].
  destruct (Hf x) as [d Hd]; [left|].
  destruct IH as (ds & Hds & Hlen); [intros y Hy; apply Hf; by right|].
  exists (d :: ds). simpl. rewrite Hd, Hds. simpl. by rewrite Hlen.
Qed.

Lemma removed_both_nil (old_keys new_keys : list string) :
  filter (λ k, k ∉ new_keys) old_keys = [] →
  filter (λ k, k ∉ old_keys) new_keys = [] →
  list_to_set old_keys =@{gset string} list_to_set new_keys.
Proof.
  intros Hm He. apply set_eq. intros k. rewrite !elem_of_list_to_set.
  split; intros Hk.
  - destruct (decide (k ∈ new_keys)) as [|Hn]; [done|].
    assert (k ∈ filter (λ k, k ∉ new_keys) old_keys) as Hin
      by (by apply list_elem_of_filter).
    rewrite Hm in Hin. by apply elem_of_nil in Hin.
  - destruct (decide (k ∈ old_keys)) as [|Hn]; [done|].
    assert (k ∈ filter (λ k, k ∉ old_keys) new_keys) as Hin
      by (by apply list_elem_of_filter).
    rewrite He in Hin. by apply elem_of_nil in Hin.
Qed.

(** The strategy never raises, and the number of records it emits. *)
Lemma handle_plist_keys_length old_list new_list path tag :
  let old_keys := stripped_text <$> old_list in
  let new_keys := stripped_text <$> new_list in
  let missing := filter (λ k, k ∉ new_keys) old_keys in
  let extra := filter (λ k, k ∉ old_keys) new_keys in
  ∃ ds, handle_plist_keys old_list new_list path tag = Some ds ∧
    length ds =
      if decide (list_to_set old_keys =@{gset string} list_to_set new_keys) then 0
      else if decide (length missing = 1 ∧ length extra = 1) then 1
      else length missing + length extra.
Proof.
  intros old_keys new_keys missing extra. unfold handle_plist_keys.
  fold old_keys new_keys. fold missing extra.
  case_decide as Hset; [by exists []|].
  case_decide as Hone.
  - destruct Hone as [Hm He].
    destruct missing as [|m [|]] eqn:Hmiss; try done.
    destruct extra as [|e [|]] eqn:Hext; try done. simpl.
    assert (m ∈ old_keys) as Hin.
    { assert (m ∈ missing) as Hin by (rewrite Hmiss; left).
      unfold missing in Hin. by apply list_elem_of_filter in Hin as [_ ?]. }
    destruct (py_index_elem_of _ _ Hin) as [i ->]. simpl. by eexists.
  - destruct (for_each_singletons
      (λ k, index ← py_index k old_keys;
            Some (append_diff [] TYPE_MISSING
                    (mkInfo CATEGORY_MISSING
                       ((path +:+ "." +:+ tag +:+ "[" +:+ pretty index +:+ "]") +:+ " text")
                       (Some (PyStr k)) None (Some k) None))) missing)
      as (ms & -> & Hms).
    { intros k [_ Hk]%list_elem_of_filter.
      destruct (py_index_elem_of _ _ Hk) as [i ->]. simpl. by eexists. }
    destruct (for_each_singletons
      (λ k, index ← py_index k new_keys;
            Some (append_diff [] TYPE_EXTRA
                    (mkInfo CATEGORY_EXTRA
                       ((path +:+ "." +:+ tag +:+ "[" +:+ pretty index +:+ "]") +:+ " text")
                       None (Some (PyStr k)) (Some k) None))) extra)
      as (es & -> & Hes).
    { intros k [_ Hk]%list_elem_of_filter.
      destruct (py_index_elem_of _ _ Hk) as [i ->]. simpl. by eexists. }
    simpl. eexists. split; [done|]. rewrite length_app. lia.
Qed.

Lemma handle_plist_keys_same_set old_list new_list path tag :
  list_to_set (stripped_text <$> old_list) =@{gset string}
    list_to_set (stripped_text <$> new_list) →
  handle_plist_keys old_list new_list path tag = Some [].
Proof. intros Hset. unfold handle_plist_keys. by rewrite decide_True. Qed.

(** C1 (as amended): the set-of-strings strategy never raises and compares the
    two sides as sets of trimmed texts: it emits no record exactly when
    every trimmed text of one side occurs on the other, hence in particular
    when the two multisets coincide, and at least one record otherwise. *)
Theorem handle_plist_keys_empty_iff_same_set (old_list new_list : list Element)
    (path tag : string) :
  ∃ ds, handle_plist_keys old_list new_list path tag = Some ds ∧
    (ds = [] ↔ ∀ k, k ∈ stripped_text <$> old_list ↔ k ∈ stripped_text <$> new_list) ∧
    ((stripped_text <$> old_list) ≡ₚ (stripped_text <$> new_list) → ds = []).
Proof.
  destruct (handle_plist_keys_length old_list new_list path tag)
    as (ds & Hds & Hlen). cbn zeta in Hlen.
  exists ds. split; [done|].
  set (old_keys := stripped_text <$> old_list) in *.
  set (new_keys := stripped_text <$> new_list) in *.
  assert (ds = [] ↔ list_to_set old_keys =@{gset string} list_to_set new_keys) as Hiff.
  { split.
    - intros ->. simpl in Hlen. case_decide as Hset; [done|].
      case_decide as Hone; [done|].
      apply removed_both_nil; apply length_zero_iff_nil; lia.
    - intros Hset. rewrite decide_True in Hlen by done.
      by apply length_zero_iff_nil. }
  split.
  - rewrite Hiff. split.
    + intros Hset k. by rewrite <- !(elem_of_list_to_set (C := gset string)), Hset.
    + intros Hk. apply set_eq. intros k. by rewrite !elem_of_list_to_set.
  - intros Hperm. apply Hiff. apply set_eq. intros k.
    by rewrite !elem_of_list_to_set, Hperm.
Qed.

(** C1, counterexample: the key lists [K, K] and [K] differ as multisets,
    and the strategy emits nothing. *)
Lemma handle_plist_keys_multiset_counterexample :
  handle_plist_keys [leaf "key" "K"; leaf "key" "K"] [leaf "key" "K"] "r.plist.dict" "key"
    = Some []
  ∧ ¬ (stripped_text <$> [leaf "key" "K"; leaf "key" "K"])
        ≡ₚ (stripped_text <$> [leaf "key" "K"]).
Proof.
  split; [by vm_compute|].
  intros Hperm. by apply Permutation_length in Hperm.
Qed.



(** ** Keys and their descriptions *)

Lemma format_object_key_of_key c k :
  tag c = "object" → get_object_key c = Some k → is_Some (format_object_key k).
Proof.
  intros Htag. unfold get_object_key.
  unfold create_event_entity_mapping_key, create_attribute_or_relationship_mapping_key,
    create_mapping_model_key.
  repeat case_decide; intros Hk; simplify_option_eq; try by eexists.
  - by destruct H0 as [-> | ->]; eexists.
  - rewrite Htag. by eexists.
Qed.

(** ** Comparing a node with itself *)

Lemma compare_attributes_self e path : compare_attributes e e path = [].
Proof.
  unfold compare_attributes.
  induction (filter _ _) as [|a l IH]; [done|]. simpl.
  rewrite decide_False by (by intros []). done.
Qed.

Lemma compare_text_self e path : compare_text e e path = [].
Proof.
  unfold compare_text. case_decide; [done|].
  by rewrite decide_False by (by intros []).
Qed.

Lemma compare_tags_same o n path : tag o = tag n → compare_tags o n path = [].
Proof. intros Htag. unfold compare_tags. by rewrite decide_False by (by intros []). Qed.

Section self.
Variable rec : option Element → option Element → string → option (list DiffRecord).

Lemma handle_object_nodes_self l path :
  Forall (λ c, tag c = "object" ∧ is_Some (get_object_key c)) l →
  (∀ c p, c ∈ l → rec (Some c) (Some c) p = Some []) →
  handle_object_nodes rec l l path = Some [].
Proof.
  intros Hl Hrec. unfold handle_object_nodes.
  destruct (key_dict l) as [d|] eqn:Hd; last first.
  { assert (is_Some (key_dict l)) as [? ?]; [|congruence].
    apply key_dict_is_Some. eapply Forall_impl; [exact Hl|]. by intros ? [_ ?]. }
  simpl. apply for_each_nil_all. intros key Hkey.
  apply elem_of_elements, elem_of_union in Hkey.
  assert (is_Some (d !! key)) as [c Hc] by (destruct Hkey; by apply elem_of_dom).
  destruct (key_dict_lookup_elem _ _ _ _ Hd Hc) as [Hin Hk].
  rewrite Forall_forall in Hl. destruct (Hl c Hin) as [Htag _].
  destruct (format_object_key_of_key c key Htag Hk) as [fk ->]. simpl.
  rewrite Hc. by apply Hrec.
Qed.

Lemma handle_default_children_self l path tag :
  (∀ c p, c ∈ l → rec (Some c) (Some c) p = Some []) →
  handle_default_children rec l l path tag = Some [].
Proof.
  intros Hrec. unfold handle_default_children.
  apply for_each_nil_all. intros i Hi.
  apply elem_of_seq in Hi.
  destruct (lookup_lt_is_Some_2 l i) as [c Hc]; [lia|].
  rewrite Hc. apply Hrec. by eapply list_elem_of_lookup_2.
Qed.

Lemma diff_children_self cs path :
  Forall (λ c, tag c = "object" → is_Some (get_object_key c)) cs →
  (∀ c p, c ∈ cs → rec (Some c) (Some c) p = Some []) →
  diff_children rec cs cs path = Some [].
Proof.
  intros Hkeys Hrec. unfold diff_children.
  apply for_each_nil_all. intros t _. rewrite group_by_tag_default.
  assert (∀ c, c ∈ filter (λ e, tag e = t) (filter_children cs) →
               c ∈ cs ∧ tag c = t) as Hin.
  { intros c [? Hc]%list_elem_of_filter. split; [|done].
    by apply filter_children_elem. }
  repeat case_decide.
  - by apply handle_plist_keys_same_set.
  - apply handle_object_nodes_self.
    + apply Forall_forall. intros c [Hc Htag]%Hin. subst t. split; [done|].
      rewrite Forall_forall in Hkeys. by apply Hkeys.
    + intros c p [Hc _]%Hin. by apply Hrec.
  - apply handle_default_children_self. intros c p [Hc _]%Hin. by apply Hrec.
Qed.
End self.

(** Idempotence, for the trees on which no key derivation raises. *)
Lemma diff_elements_self T path :
  keys_defined T → diff_elements (Some T) (Some T) path = Some [].
Proof.
  revert path. induction T as [t a x cs IH] using Element_ind. intros path Hkeys.
  rewrite diff_elements_unfold. unfold diff_elements_body. simpl.
  rewrite compare_tags_same by done.
  rewrite decide_False by (by intros []).
  rewrite compare_text_self, compare_attributes_self.
  simpl in Hkeys. apply forallb_True in Hkeys.
  rewrite diff_children_self; [done| |].
  - eapply Forall_impl; [exact Hkeys|]. intros c Hc.
    apply andb_True in Hc as [Hc _]. by apply bool_decide_unpack in Hc.
  - intros c p Hc. rewrite Forall_forall in IH, Hkeys.
    apply IH; [done|]. specialize (Hkeys c Hc). by apply andb_True in Hkeys as [_ ?].
Qed.

(** C7: two present nodes whose tags differ yield exactly one mismatch of
    subtype [tag], carrying the two tag names, and nothing else: text,
    attributes and children are not compared. *)
Theorem diff_elements_tag_mismatch (old_elem new_elem : Element) (path : string) :
  tag old_elem ≠ tag new_elem →
  diff_elements (Some old_elem) (Some new_elem) path =
    Some [(TYPE_MISMATCH,
           mkInfo CATEGORY_MISMATCH (path +:+ " tag")
             (Some (PyStr (tag old_elem))) (Some (PyStr (tag new_elem)))
             None (Some "tag"))].
Proof.
  intros Htag. rewrite diff_elements_unfold. unfold diff_elements_body. simpl.
  assert (compare_tags old_elem new_elem path =
          [(TYPE_MISMATCH,
            mkInfo CATEGORY_MISMATCH (path +:+ " tag")
              (Some (PyStr (tag old_elem))) (Some (PyStr (tag new_elem)))
              None (Some "tag"))]) as ->.
  { unfold compare_tags. by case_decide. }
  by case_decide.
Qed.

(** The example of the specification: [<a>1</a>] against [<b>1</b>]. *)
Lemma diff_elements_tag_mismatch_witness :
  diff_elements (Some (leaf "a" "1")) (Some (leaf "b" "1")) "a" =
    Some [(TYPE_MISMATCH,
           mkInfo CATEGORY_MISMATCH "a tag" (Some (PyStr "a")) (Some (PyStr "b"))
             None (Some "tag"))].
Proof. apply (diff_elements_tag_mismatch (leaf "a" "1") (leaf "b" "1") "a"). done. Defined.

(** C2: key derivation raises on an object whose key sub-field is present
    but has no text, for each of the three helpers. *)
Theorem get_object_key_raises :
  get_object_key empty_path_model = None
  ∧ get_object_key empty_source_mapping = None
  ∧ get_object_key empty_name_mapping = None.
Proof. by vm_compute. Qed.

(** An absent sub-field gives the empty string. *)
Lemma get_object_key_absent_fields :
  get_object_key (object_node "XDDEVENTITYMAPPING" []) =
    Some [PyStr "XDDEVENTITYMAPPING"; PyStr ""; PyStr ""; PyStr ""]
  ∧ get_object_key (object_node "XDDEVRELATIONSHIPMAPPING" []) =
    Some [PyStr "XDDEVRELATIONSHIPMAPPING"; PyStr ""]
  ∧ get_object_key (object_node "XDDEVMAPPINGMODEL" []) =
    Some [PyStr "XDDEVMAPPINGMODEL"; PyStr ""].
Proof. by vm_compute. Qed.

(** Key derivation succeeds when every [attribute] child has text. *)
Lemma get_object_key_is_Some elem :
  Forall (λ c, tag c = "attribute" → is_Some (text c)) (children elem) →
  is_Some (get_object_key elem).
Proof.
  intros Htext.
  assert (∀ name, is_Some (text_or_empty (find_attribute elem name))) as Hfield.
  { intros name. unfold find_attribute.
    destruct (head _) as [sub|] eqn:Hsub; [|by eexists]. simpl.
    apply head_Some_elem_of, list_elem_of_filter in Hsub as [[Htag _] Hin].
    rewrite Forall_forall in Htext. destruct (Htext sub Hin Htag) as [x ->].
    by eexists. }
  unfold get_object_key, create_event_entity_mapping_key,
    create_attribute_or_relationship_mapping_key, create_mapping_model_key.
  repeat case_decide; try by eexists.
  - destruct (Hfield "sourcename") as [? ->], (Hfield "destinationname") as [? ->],
      (Hfield "mappingtypename") as [? ->]. by eexists.
  - destruct (Hfield "name") as [? ->]. by eexists.
  - destruct (Hfield "sourcemodelpath") as [? ->]. by eexists.
Qed.

(** Key derivation raises exactly when a sub-field that the key reads is
    present and has no text. *)
Lemma get_object_key_None elem :
  get_object_key elem = None ↔
  ∃ name sub, name ∈ key_fields (get elem "type")
              ∧ find_attribute elem name = Some sub ∧ text sub = None.
Proof.
  assert (∀ name, text_or_empty (find_attribute elem name) = None ↔
                  ∃ sub, find_attribute elem name = Some sub ∧ text sub = None)
    as Hfield.
  { intros name. destruct (find_attribute elem name) as [sub|]; simpl.
    - destruct (text sub) eqn:Htext; simpl; split; try done.
      + intros (? & [= <-] & ?). congruence.
      + intros _. by exists sub.
    - split; [done|]. by intros (? & ? & _). }
  unfold get_object_key, key_fields, create_event_entity_mapping_key,
    create_attribute_or_relationship_mapping_key, create_mapping_model_key.
  cbn zeta. repeat case_decide.
  - split.
    + intros Hnone.
      destruct (text_or_empty (find_attribute elem "sourcename")) eqn:Hs; simpl in *.
      2:{ apply Hfield in Hs as (sub & ? & ?). exists "sourcename", sub.
          split; [|done]. left. }
      destruct (text_or_empty (find_attribute elem "destinationname")) eqn:Hd;
        simpl in *.
      2:{ apply Hfield in Hd as (sub & ? & ?). exists "destinationname", sub.
          split; [|done]. right; left. }
      destruct (text_or_empty (find_attribute elem "mappingtypename")) eqn:Hm;
        simpl in *; [done|].
      apply Hfield in Hm as (sub & ? & ?). exists "mappingtypename", sub.
      split; [|done]. right; right; left.
    + intros (name & sub & Hname & Hsub).
      assert (text_or_empty (find_attribute elem name) = None) as Hnone
        by (apply Hfield; eauto).
      apply elem_of_cons in Hname as [->|Hname]; [by rewrite Hnone|].
      destruct (text_or_empty (find_attribute elem "sourcename")); [simpl|done].
      apply elem_of_cons in Hname as [->|Hname]; [by rewrite Hnone|].
      destruct (text_or_empty (find_attribute elem "destinationname")); [simpl|done].
      apply list_elem_of_singleton in Hname as ->. by rewrite Hnone.
  - split.
    + intros Hnone.
      destruct (text_or_empty (find_attribute elem "name")) eqn:Hn; [done|].
      apply Hfield in Hn as (sub & ? & ?). exists "name", sub. split; [left|done].
    + intros (name & sub & ->%list_elem_of_singleton & Hsub).
      assert (text_or_empty (find_attribute elem "name") = None) as ->
        by (apply Hfield; eauto). done.
  - split.
    + intros Hnone.
      destruct (text_or_empty (find_attribute elem "sourcemodelpath")) eqn:Hn; [done|].
      apply Hfield in Hn as (sub & ? & ?). exists "sourcemodelpath", sub.
      split; [left|done].
    + intros (name & sub & ->%list_elem_of_singleton & Hsub).
      assert (text_or_empty (find_attribute elem "sourcemodelpath") = None) as ->
        by (apply Hfield; eauto). done.
  - split; [done|]. by intros (? & ? & ?%elem_of_nil & _).
Qed.

(** C5: comparing a tree with itself raises when one of its objects has a
    key sub-field without text. *)
Theorem diff_elements_self_raises :
  diff_elements (Some (database [empty_path_model]))
                (Some (database [empty_path_model])) "database" = None.
Proof. by vm_compute. Qed.

(** C9: a key segment that is not the last segment keeps its closing
    bracket, and the closing bracket of the index that ends the path becomes
    a brace. The path is the one of the extra node that the comparator
    reports for a child added to a matched object. *)
Theorem normalize_path_inner_segment :
  diff_elements
    (Some (database [attribute_mapping "x" []]))
    (Some (database [attribute_mapping "x" [attribute_node "y" (Some "1")]]))
    "database" =
    Some [(TYPE_EXTRA,
           mkInfo CATEGORY_EXTRA "database.object[name: x].attribute[1]"
             None (Some (PyStr "attribute: '1'")) (Some "1") None)]
  ∧ normalize_path "database.object[name: x].attribute[1]" =
      "database.object.{name: x].attribute[1}".
Proof. by vm_compute. Qed.

(** When the key segment ends the path, both brackets are rewritten. *)
Lemma normalize_path_last_segment :
  normalize_path "database.object[name: x]" = "database.object.{name: x}".
Proof. by vm_compute. Qed.

(** ** Path normalisation *)

Lemma str_app_cons c s t : String c s +:+ t = String c (s +:+ t).
Proof. done. Qed.

Lemma str_app_nil t : "" +:+ t = t.
Proof. done. Qed.

Lemma str_app_assoc a b c : (a +:+ b) +:+ c = a +:+ (b +:+ c).
Proof. induction a as [|x a IH]; [done|]. by rewrite !str_app_cons, IH. Qed.

Lemma str_prefix_nil s : String.prefix "" s = true.
Proof. by destruct s. Qed.

(** A prefix test reads no more of the string than the prefix is long. *)
Lemma str_prefix_app old a t :
  String.length old ≤ String.length a →
  String.prefix old (a +:+ t) = String.prefix old a.
Proof.
  revert a. induction old as [|x old IH]; intros a Hlen.
  - by rewrite !str_prefix_nil.
  - destruct a as [|y a]; simpl in Hlen; [lia|].
    rewrite str_app_cons. simpl. destruct (Ascii.ascii_dec x y); [|done].
    apply IH. lia.
Qed.

Lemma str_length_app a b : String.length (a +:+ b) = String.length a + String.length b.
Proof. induction a as [|x a IH]; [done|]. rewrite str_app_cons. simpl. by rewrite IH. Qed.

Lemma str_contains_app old pre rest :
  String.prefix old rest = true → str_contains old (pre +:+ rest) = true.
Proof.
  intros Hrest. induction pre as [|c pre IH].
  - rewrite str_app_nil. destruct rest; simpl in *; by rewrite Hrest.
  - rewrite str_app_cons. simpl. rewrite IH. apply orb_true_r.
Qed.

(** Where the text to replace does not occur, nothing is replaced. *)
Lemma str_replace_absent old new s :
  str_contains old s = false → str_replace_from 0 old new s = s.
Proof.
  induction s as [|c s IH]; [done|]. simpl.
  intros [Hhere Hrest]%orb_false_elim. rewrite Hhere. by rewrite IH.
Qed.

Lemma str_replace_skip_prefix old new pre mid rest :
  String.length old ≤ S (String.length mid) →
  str_contains old (pre +:+ mid) = false →
  str_replace_from 0 old new (pre +:+ mid +:+ rest) =
  pre +:+ str_replace_from 0 old new (mid +:+ rest).
Proof.
  intros Hlen. induction pre as [|c pre IH]; [done|].
  rewrite !str_app_cons. cbn [str_contains str_replace_from].
  intros [Hhere Hrest]%orb_false_elim.
  assert (String.prefix old (String c (pre +:+ mid +:+ rest)) = false) as ->.
  { rewrite <- Hhere, <- !str_app_cons, <- str_app_assoc. apply str_prefix_app.
    rewrite str_app_cons. simpl. rewrite str_length_app. lia. }
  by rewrite IH.
Qed.

Lemma str_prefix_app_self old rest : String.prefix old (old +:+ rest) = true.
Proof.
  induction old as [|c old IH]; [by rewrite str_prefix_nil|].
  rewrite str_app_cons. simpl. by destruct (Ascii.ascii_dec c c).
Qed.

Lemma str_replace_from_skip old new a rest :
  str_replace_from (String.length a) old new (a +:+ rest) =
  str_replace_from 0 old new rest.
Proof. induction a as [|c a IH]; [done|]. by rewrite str_app_cons. Qed.

(** An occurrence at the head is replaced, and the scan goes on behind it. *)
Lemma str_replace_match old new rest :
  old ≠ "" →
  str_replace_from 0 old new (old +:+ rest) =
  new +:+ str_replace_from 0 old new rest.
Proof.
  destruct old as [|c old]; [done|]. intros _.
  rewrite str_app_cons. cbn [str_replace_from].
  rewrite <- str_app_cons, str_prefix_app_self. simpl.
  by rewrite Nat.sub_0_r, str_replace_from_skip.
Qed.

Lemma str_rev_app_app a b acc :
  String.rev_app (a +:+ b) acc = String.rev_app b (String.rev_app a acc).
Proof.
  revert acc. induction a as [|x a IH]; intros acc; [done|].
  rewrite str_app_cons. simpl. apply IH.
Qed.

Lemma str_endswith_snoc s c : str_endswith (s +:+ String c "") (String c "") = true.
Proof.
  unfold str_endswith, String.rev. rewrite str_rev_app_app. simpl.
  destruct (Ascii.ascii_dec c c); [|done]. apply str_prefix_nil.
Qed.

Lemma str_drop_last_snoc s c : str_drop_last (s +:+ String c "") = s.
Proof.
  unfold str_drop_last. rewrite str_length_app. simpl.
  replace (String.length s + 1 - 1) with (String.length s) by lia.
  induction s as [|x s IH]; [done|]. rewrite str_app_cons. simpl. by rewrite IH.
Qed.

(** When the key segment is the only one and ends the path, both of its
    brackets are rewritten. *)
Lemma normalize_path_last_key_segment pre desc :
  str_contains "object[" (pre +:+ "object") = false →
  str_contains "object[" (desc +:+ "]") = false →
  normalize_path (pre +:+ "object[" +:+ desc +:+ "]") =
    pre +:+ "object.{" +:+ desc +:+ "}".
Proof.
  intros Hpre Hdesc. unfold normalize_path.
  rewrite str_contains_app by (by destruct desc).
  unfold str_replace.
  change ("object[" +:+ desc +:+ "]") with ("object" +:+ ("[" +:+ desc +:+ "]")).
  rewrite str_replace_skip_prefix by (simpl; lia || done).
  change ("object" +:+ "[" +:+ desc +:+ "]") with ("object[" +:+ desc +:+ "]").
  rewrite str_replace_match, str_replace_absent by done.
  rewrite <- !str_app_assoc.
  by rewrite str_endswith_snoc, str_drop_last_snoc.
Qed.

(** ** Runs with the same records *)

Lemma same_records_refl r : same_records r r.
Proof. unfold same_records. by destruct r; constructor. Qed.

Lemma same_records_eq r r' : r = r' → same_records r r'.
Proof. intros ->. apply same_records_refl. Qed.

(** ** Duplicate keys *)

(** A child that a later child shadows under the same key does not change
    the dictionary. *)
Lemma key_dict_shadowed l1 c l2 :
  (∃ c', c' ∈ l2 ∧ is_Some (get_object_key c)
         ∧ get_object_key c' = get_object_key c) →
  key_dict (l1 ++ c :: l2) = key_dict (l1 ++ l2).
Proof.
  intros (c' & Hc' & [k Hk] & Hsame). rewrite Hk in Hsame.
  assert (is_Some (key_dict (l1 ++ c :: l2)) ↔ is_Some (key_dict (l1 ++ l2))) as Hsome.
  { rewrite !key_dict_is_Some, !Forall_app, Forall_cons, Hk.
    split; [by intros (? & _ & ?)|]. intros [? ?]. split_and!; [done|by eexists|done]. }
  destruct (key_dict (l1 ++ c :: l2)) as [d1|] eqn:Hd1,
           (key_dict (l1 ++ l2)) as [d2|] eqn:Hd2.
  - f_equal. apply map_eq. intros j.
    rewrite (key_dict_lookup _ _ j Hd1), (key_dict_lookup _ _ j Hd2).
    rewrite !filter_app, filter_cons.
    case_decide as Hj; [|done].
    assert (j = k) as -> by congruence.
    assert (filter (λ c0, get_object_key c0 = Some k) l2 ≠ []) as Hne.
    { intros Hnil. by eapply (filter_nil_not_elem_of _ _ c'). }
    rewrite !last_app.
    destruct (last (filter (λ c0, get_object_key c0 = Some k) l2)) eqn:Hl2.
    + by rewrite last_cons, Hl2.
    + by apply last_None in Hl2.
  - destruct Hsome as [[? ?] _]; [by eexists | done].
  - destruct Hsome as [_ [? ?]]; [by eexists | done].
  - done.
Qed.

(** C10: in the key-based strategy a sibling that is followed, on its side,
    by a sibling with the same key takes no part in the comparison: with or
    without that sibling the strategy raises, or returns the same records.
    Only the last sibling of each key is compared. *)
Theorem handle_object_nodes_duplicate_key (l1 l2 others : list Element)
    (c : Element) (path : string) :
  (∃ c', c' ∈ l2 ∧ is_Some (get_object_key c)
         ∧ get_object_key c' = get_object_key c) →
  same_records (handle_object_nodes diff_elements (l1 ++ c :: l2) others path)
               (handle_object_nodes diff_elements (l1 ++ l2) others path)
  ∧ same_records (handle_object_nodes diff_elements others (l1 ++ c :: l2) path)
                 (handle_object_nodes diff_elements others (l1 ++ l2) path).
Proof.
  intros Hdup. unfold handle_object_nodes.
  rewrite (key_dict_shadowed l1 c l2 Hdup).
  split; apply same_records_refl.
Qed.

(** Two objects of an unknown type share the key [("object",)]: the first
    one is dropped, on either side. *)
Lemma handle_object_nodes_duplicate_key_witness :
  same_records
    (handle_object_nodes diff_elements [leaf "object" "a"; leaf "object" "b"]
       [leaf "object" "b"] "database")
    (handle_object_nodes diff_elements [leaf "object" "b"] [leaf "object" "b"]
       "database")
  ∧ same_records
      (handle_object_nodes diff_elements [leaf "object" "b"]
         [leaf "object" "a"; leaf "object" "b"] "database")
      (handle_object_nodes diff_elements [leaf "object" "b"] [leaf "object" "b"]
         "database").
Proof.
  apply (handle_object_nodes_duplicate_key [] [leaf "object" "b"] [leaf "object" "b"]
           (leaf "object" "a") "database").
  exists (leaf "object" "b"). split; [left|]. split; [by eexists | reflexivity].
Defined.

(** ** Related trees have the same diff *)

Lemma filter_non_objects (P : Element → Prop) `{!∀ x, Decision (P x)} l :
  (∀ x, P x → tag x ≠ "object") → filter P (non_objects l) = filter P l.
Proof.
  intros HP. unfold non_objects. induction l as [|e l IH]; [done|].
  rewrite (filter_cons (λ e, tag e ≠ "object")). case_decide as Htag.
  - rewrite !(filter_cons P). case_decide; by rewrite IH.
  - rewrite IH, (filter_cons_False P); [done|]. intros He. by apply (HP _ He).
Qed.

Lemma length_objects_non_objects l :
  length l = length (objects l) + length (non_objects l).
Proof.
  unfold objects, non_objects.
  rewrite <- length_app. apply Permutation_length. symmetry.
  apply (filter_app_complement (λ e, tag e = "object")).
Qed.

Lemma objects_filter_children l : objects (filter_children l) = objects l.
Proof.
  unfold objects, filter_children. rewrite list_filter_filter.
  apply list_filter_iff. intros e. split; [by intros [? _]|].
  intros Htag. split; [done|]. intros [Hattr _]. by rewrite Htag in Hattr.
Qed.

Lemma non_objects_filter_children l :
  non_objects (filter_children l) = filter_children (non_objects l).
Proof.
  unfold non_objects, filter_children. rewrite !list_filter_filter.
  apply list_filter_iff. intros e. tauto.
Qed.

Lemma filter_tag_objects l : filter (λ e, tag e = "object") l = objects l.
Proof. done. Qed.

Lemma elem_of_dom_group_by_tag_filter l t :
  t ∈ dom (group_by_tag l) ↔ filter (λ e, tag e = t) l ≠ [].
Proof.
  rewrite elem_of_dom, group_by_tag_lookup. cbn zeta.
  case_decide as Hg; split; try done; by intros [].
Qed.

Lemma is_Some_iff_cases {A B} (x : option A) (y : option B) :
  (is_Some x ↔ is_Some y) →
  (x = None ∧ y = None) ∨ (∃ a b, x = Some a ∧ y = Some b).
Proof.
  destruct x as [a|], y as [b|]; intros [H1 H2]; eauto.
  - destruct H1 as [? [=]]. by eexists.
  - destruct H2 as [? [=]]. by eexists.
Qed.

Section related.
Context (RA : relation (gmap string string)) (L : relation (list Element)).
Hypothesis RA_agree : ∀ a a', RA a a' → ignored_agree a a'.
Hypothesis L_non_objects : ∀ l l', L l l' → non_objects l = non_objects l'.
Hypothesis L_objects : ∀ l l', L l l' → objects l ≡ₚ objects l'.
Hypothesis L_key_dict : ∀ l l', L l l' → key_dict (objects l) = key_dict (objects l').

Abbreviation R := (related RA L).

Lemma related_tag e e' : R e e' → tag e = tag e'.
Proof. by destruct 1. Qed.

Lemma related_text e e' : R e e' → text e = text e'.
Proof. by destruct 1. Qed.

Lemma related_stripped_text e e' : R e e' → stripped_text e = stripped_text e'.
Proof. intros H. unfold stripped_text. by rewrite (related_text _ _ H). Qed.

Lemma related_dom e e' : R e e' → dom (attrib e) = dom (attrib e').
Proof. destruct 1 as [??????? Ha]. by destruct (RA_agree _ _ Ha). Qed.

Lemma related_get e e' k : R e e' → k ∉ IGNORED_ATTRIBUTES → get e k = get e' k.
Proof.
  destruct 1 as [??????? Ha]. intros Hk. unfold get. simpl.
  destruct (RA_agree _ _ Ha) as [_ Hag]. by rewrite Hag.
Qed.

Lemma related_children e e' :
  R e e' → ∃ cs0, Forall2 R (children e) cs0 ∧ L cs0 (children e').
Proof. destruct 1; eauto. Qed.

Lemma L_filter (P : Element → Prop) `{!∀ x, Decision (P x)} l l' :
  (∀ x, P x → tag x ≠ "object") → L l l' → filter P l = filter P l'.
Proof.
  intros HP Hl.
  by rewrite <- (filter_non_objects P l), <- (filter_non_objects P l'),
    (L_non_objects _ _ Hl).
Qed.

Lemma L_length l l' : L l l' → length l = length l'.
Proof.
  intros Hl. rewrite (length_objects_non_objects l), (length_objects_non_objects l').
  by rewrite (L_non_objects _ _ Hl), (L_objects _ _ Hl).
Qed.

Lemma related_find_attribute e e' name :
  R e e' → option_Forall2 R (find_attribute e name) (find_attribute e' name).
Proof.
  intros (cs0 & Hcs & Hl)%related_children. unfold find_attribute.
  rewrite <- (L_filter (λ c, tag c = "attribute" ∧ get c "name" = PyStr name)
                cs0 (children e')); [|by intros x [-> _]|done].
  assert (Forall2 R
    (filter (λ c, tag c = "attribute" ∧ get c "name" = PyStr name) (children e))
    (filter (λ c, tag c = "attribute" ∧ get c "name" = PyStr name) cs0)) as Hf.
  { apply Forall2_filter; [|done]. intros x y Hxy.
    by rewrite (related_tag _ _ Hxy), (related_get _ _ "name" Hxy). }
  destruct Hf; simpl; by constructor.
Qed.

Lemma related_text_or_empty e e' name :
  R e e' →
  text_or_empty (find_attribute e name) = text_or_empty (find_attribute e' name).
Proof.
  intros H. destruct (related_find_attribute e e' name H) as [s s' Hs|]; [|done].
  simpl. by rewrite (related_text _ _ Hs).
Qed.

Lemma related_get_object_key e e' : R e e' → get_object_key e = get_object_key e'.
Proof.
  intros H. unfold get_object_key, create_event_entity_mapping_key,
    create_attribute_or_relationship_mapping_key, create_mapping_model_key.
  rewrite <- (related_get _ _ "type" H) by done.
  rewrite <- (related_tag _ _ H).
  by rewrite <- !(related_text_or_empty _ _ _ H).
Qed.

Lemma related_format_element e e' : R e e' → format_element e = format_element e'.
Proof.
  intros H. unfold format_element, format_event_entity_mapping.
  rewrite <- (related_get _ _ "type" H) by done.
  rewrite <- (related_tag _ _ H), <- (related_stripped_text _ _ H).
  rewrite <- (related_get_object_key _ _ H).
  by rewrite <- !(related_text_or_empty _ _ _ H).
Qed.

Lemma related_get_element_value e e' :
  R e e' → get_element_value e = get_element_value e'.
Proof.
  intros H. unfold get_element_value.
  rewrite <- (related_stripped_text _ _ H).
  destruct (related_children _ _ H) as (cs0 & Hcs & Hl).
  by rewrite <- (L_length _ _ Hl), <- (Forall2_length _ _ _ Hcs).
Qed.

Lemma related_check_missing_nodes o o' n n' path :
  option_Forall2 R o o' → option_Forall2 R n n' →
  check_missing_nodes o n path = check_missing_nodes o' n' path.
Proof.
  intros [a a' Ha|] [b b' Hb|]; simpl; try done.
  - by rewrite (related_format_element _ _ Ha), (related_get_element_value _ _ Ha).
  - by rewrite (related_format_element _ _ Hb), (related_get_element_value _ _ Hb).
Qed.

Lemma related_compare_tags o o' n n' path :
  R o o' → R n n' → compare_tags o n path = compare_tags o' n' path.
Proof.
  intros Ho Hn. unfold compare_tags.
  by rewrite (related_tag _ _ Ho), (related_tag _ _ Hn).
Qed.

Lemma related_compare_text o o' n n' path :
  R o o' → R n n' → compare_text o n path = compare_text o' n' path.
Proof.
  intros Ho Hn. unfold compare_text.
  rewrite (related_tag _ _ Ho), (related_get _ _ "name" Ho) by done.
  by rewrite (related_stripped_text _ _ Ho), (related_stripped_text _ _ Hn).
Qed.

Lemma related_compare_attributes o o' n n' path :
  R o o' → R n n' → compare_attributes o n path = compare_attributes o' n' path.
Proof.
  intros Ho Hn. unfold compare_attributes.
  rewrite <- (related_dom _ _ Ho), <- (related_dom _ _ Hn).
  assert (∀ l : list string, Forall (λ x, x ∉ IGNORED_ATTRIBUTES) l →
    flat_map (λ attr,
      if decide (get o attr ≠ get n attr) then
        append_diff [] TYPE_MISMATCH
          (mkInfo CATEGORY_MISMATCH (path +:+ " attribute '" +:+ attr +:+ "'")
             (Some (get o attr)) (Some (get n attr)) None (Some "attribute"))
      else []) l =
    flat_map (λ attr,
      if decide (get o' attr ≠ get n' attr) then
        append_diff [] TYPE_MISMATCH
          (mkInfo CATEGORY_MISMATCH (path +:+ " attribute '" +:+ attr +:+ "'")
             (Some (get o' attr)) (Some (get n' attr)) None (Some "attribute"))
      else []) l) as Hflat.
  { induction 1 as [|k l Hk _ IH]; [done|]. simpl.
    by rewrite IH, (related_get _ _ k Ho), (related_get _ _ k Hn). }
  apply Hflat. apply Forall_forall. by intros k [? _]%list_elem_of_filter.
Qed.

(** *** The dictionaries of related lists *)

Lemma related_key_dict l l' d d' :
  Forall2 R l l' → key_dict l = Some d → key_dict l' = Some d' →
  dom d = dom d' ∧ ∀ k, option_Forall2 R (d !! k) (d' !! k).
Proof.
  intros Hl Hd Hd'.
  assert (∀ k, option_Forall2 R (d !! k) (d' !! k)) as Hlookup.
  { intros k. rewrite (key_dict_lookup _ _ k Hd), (key_dict_lookup _ _ k Hd').
    apply Forall2_last, Forall2_filter; [|done].
    intros x y Hxy. by rewrite (related_get_object_key _ _ Hxy). }
  split; [|done]. apply set_eq. intros k. rewrite !elem_of_dom.
  destruct (Hlookup k); split; intros []; by eauto.
Qed.

Lemma related_key_dict_is_Some l l' :
  Forall2 R l l' → is_Some (key_dict l) ↔ is_Some (key_dict l').
Proof.
  intros Hl. rewrite !key_dict_is_Some.
  induction Hl as [|x y l l' Hxy Hl IH]; [done|].
  by rewrite !Forall_cons, IH, (related_get_object_key _ _ Hxy).
Qed.

Section strategies.
Variable rec : option Element → option Element → string → option (list DiffRecord).

Lemma related_handle_object_nodes old_list old_list' new_list new_list' path :
  Forall2 R old_list old_list' → Forall2 R new_list new_list' →
  (∀ c c' n n' p, c ∈ old_list → R c c' → R n n' →
                  rec (Some c) (Some n) p = rec (Some c') (Some n') p) →
  handle_object_nodes rec old_list new_list path =
  handle_object_nodes rec old_list' new_list' path.
Proof.
  intros Hold Hnew Hrec. unfold handle_object_nodes.
  destruct (is_Some_iff_cases _ _ (related_key_dict_is_Some _ _ Hold))
    as [[-> ->]|(d & d' & Hd & Hd')]; [done|].
  rewrite Hd, Hd'. simpl.
  destruct (is_Some_iff_cases _ _ (related_key_dict_is_Some _ _ Hnew))
    as [[-> ->]|(dn & dn' & Hdn & Hdn')]; [done|].
  rewrite Hdn, Hdn'. simpl.
  destruct (related_key_dict _ _ _ _ Hold Hd Hd') as [<- Hlo].
  destruct (related_key_dict _ _ _ _ Hnew Hdn Hdn') as [<- Hln].
  apply for_each_ext. intros key _.
  destruct (format_object_key key); [|done]. simpl.
  pose proof (key_dict_lookup_elem old_list d key) as Hin.
  destruct (Hlo key) as [c c' Hc|], (Hln key) as [n n' Hn|]; try done.
  - apply Hrec; [|done|done]. by destruct (Hin c Hd eq_refl).
  - by rewrite (related_format_element _ _ Hc).
  - by rewrite (related_format_element _ _ Hn).
Qed.

Lemma related_handle_default_children old_list old_list' new_list new_list'
    path tag :
  Forall2 R old_list old_list' → Forall2 R new_list new_list' →
  (∀ co co' cn cn' p, (∀ c, co = Some c → c ∈ old_list) →
     option_Forall2 R co co' → option_Forall2 R cn cn' →
     rec co cn p = rec co' cn' p) →
  handle_default_children rec old_list new_list path tag =
  handle_default_children rec old_list' new_list' path tag.
Proof.
  intros Hold Hnew Hrec. unfold handle_default_children.
  rewrite <- (Forall2_length _ _ _ Hold), <- (Forall2_length _ _ _ Hnew).
  apply for_each_ext. intros i _. apply Hrec.
  - intros c Hc. by eapply list_elem_of_lookup_2.
  - by apply Forall2_lookup.
  - by apply Forall2_lookup.
Qed.

Lemma related_filter_children l l' :
  Forall2 R l l' → Forall2 R (filter_children l) (filter_children l').
Proof.
  intros Hl. unfold filter_children. apply Forall2_filter; [|done].
  intros x y Hxy.
  by rewrite (related_tag _ _ Hxy), (related_get _ _ "name" Hxy).
Qed.

Lemma related_filter_tag l l' t :
  Forall2 R l l' →
  Forall2 R (filter (λ e, tag e = t) l) (filter (λ e, tag e = t) l').
Proof.
  intros Hl. apply Forall2_filter; [|done].
  intros x y Hxy. by rewrite (related_tag _ _ Hxy).
Qed.

Lemma related_dom_group_by_tag l l' :
  Forall2 R l l' → dom (group_by_tag l) = dom (group_by_tag l').
Proof.
  intros Hl. apply set_eq. intros t. rewrite !elem_of_dom_group_by_tag_filter.
  pose proof (Forall2_length _ _ _ (related_filter_tag l l' t Hl)) as Hlen.
  split; intros Hne Hnil; rewrite Hnil in Hlen; simpl in Hlen;
    apply Hne, length_zero_iff_nil; lia.
Qed.

(** The children related one by one. *)
Lemma related_diff_children old_children old_children' new_children
    new_children' path :
  Forall2 R old_children old_children' → Forall2 R new_children new_children' →
  (∀ co co' cn cn' p, (∀ c, co = Some c → c ∈ old_children) →
     option_Forall2 R co co' → option_Forall2 R cn cn' →
     rec co cn p = rec co' cn' p) →
  diff_children rec old_children new_children path =
  diff_children rec old_children' new_children' path.
Proof.
  intros Hold%related_filter_children Hnew%related_filter_children Hrec.
  unfold diff_children.
  rewrite <- (related_dom_group_by_tag _ _ Hold),
    <- (related_dom_group_by_tag _ _ Hnew).
  apply for_each_ext. intros t _. rewrite !group_by_tag_default.
  pose proof (related_filter_tag _ _ t Hold) as Hgo.
  pose proof (related_filter_tag _ _ t Hnew) as Hgn.
  assert (∀ c, c ∈ filter (λ e, tag e = t) (filter_children old_children) →
               c ∈ old_children) as Hin.
  { intros c [_ Hc]%list_elem_of_filter. by apply filter_children_elem. }
  repeat case_decide.
  - unfold handle_plist_keys.
    assert (∀ g g', Forall2 R g g' → stripped_text <$> g = stripped_text <$> g')
      as Htexts.
    { induction 1 as [|x y g g' Hxy _ IH]; [done|].
      by rewrite !fmap_cons, IH, (related_stripped_text _ _ Hxy). }
    by rewrite (Htexts _ _ Hgo), (Htexts _ _ Hgn).
  - apply related_handle_object_nodes; [done..|].
    intros c c' n n' p Hc Hcc Hnn. apply Hrec; [|by constructor..].
    intros ? [= <-]. by apply Hin.
  - apply related_handle_default_children; [done..|].
    intros co co' cn cn' p Hco. apply Hrec. intros c ->. by apply Hin, Hco.
Qed.

(** The children rearranged as [L] allows. *)
Lemma L_diff_children old_children old_children' new_children new_children'
    path :
  L old_children old_children' → L new_children new_children' →
  diff_children rec old_children new_children path =
  diff_children rec old_children' new_children' path.
Proof.
  intros Hold Hnew. unfold diff_children.
  assert (∀ l l' t, L l l' → t ≠ "object" →
            filter (λ e, tag e = t) (filter_children l) =
            filter (λ e, tag e = t) (filter_children l')) as Hother.
  { intros l l' t Hl Ht.
    rewrite <- (filter_non_objects _ (filter_children l)),
      <- (filter_non_objects _ (filter_children l')) by (by intros x ->).
    by rewrite !non_objects_filter_children, (L_non_objects _ _ Hl). }
  assert (∀ l l', L l l' →
            dom (group_by_tag (filter_children l)) =
            dom (group_by_tag (filter_children l'))) as Hdom.
  { intros l l' Hl. apply set_eq. intros t.
    rewrite !elem_of_dom_group_by_tag_filter.
    destruct (decide (t = "object")) as [->|Ht].
    - rewrite !filter_tag_objects, !objects_filter_children.
      pose proof (Permutation_length (L_objects _ _ Hl)) as Hlen.
      split; intros Hne Hnil; rewrite Hnil in Hlen; simpl in Hlen;
        apply Hne, length_zero_iff_nil; lia.
    - by rewrite (Hother _ _ t Hl Ht). }
  rewrite (Hdom _ _ Hold), (Hdom _ _ Hnew).
  apply for_each_ext. intros t _. rewrite !group_by_tag_default.
  repeat case_decide.
  - destruct_and!. subst t. by rewrite (Hother _ _ "key" Hold), (Hother _ _ "key" Hnew).
  - subst t. unfold handle_object_nodes.
    rewrite !filter_tag_objects, !objects_filter_children.
    by rewrite (L_key_dict _ _ Hold), (L_key_dict _ _ Hnew).
  - by rewrite (Hother _ _ t Hold), (Hother _ _ t Hnew).
Qed.
End strategies.

(** *** The comparator *)

Lemma related_diff_elements_absent n n' path :
  option_Forall2 R n n' →
  diff_elements None n path = diff_elements None n' path.
Proof.
  intros Hn. rewrite !diff_elements_unfold. unfold diff_elements_body.
  rewrite (related_check_missing_nodes None None n n' path) by (done || constructor).
  destruct (check_missing_nodes None n' path) as [[ds both]|] eqn:Hcheck; [|done].
  simpl. destruct both; [|done]. simpl. by destruct Hn.
Qed.

Lemma related_diff_elements o :
  ∀ o' n n' path, R o o' → option_Forall2 R n n' →
  diff_elements (Some o) n path = diff_elements (Some o') n' path.
Proof.
  induction o as [t a x cs IH] using Element_ind.
  intros o' n n' path Ho Hn.
  rewrite !diff_elements_unfold. unfold diff_elements_body.
  rewrite (related_check_missing_nodes (Some (mkElement t a x cs)) (Some o') n n' path)
    by (done || by constructor).
  destruct (check_missing_nodes (Some o') n' path) as [[ds both]|]; [|done].
  simpl. destruct both; [|done]. simpl.
  destruct Hn as [n n' Hn|]; [|done].
  rewrite (related_compare_tags _ _ _ _ path Ho Hn).
  case_decide; [done|].
  rewrite (related_compare_text _ _ _ _ path Ho Hn),
    (related_compare_attributes _ _ _ _ path Ho Hn).
  destruct (related_children _ _ Ho) as (cs0 & Hcs & Hl).
  destruct (related_children _ _ Hn) as (ns0 & Hns & Hnl).
  simpl in Hcs.
  rewrite (related_diff_children diff_elements cs cs0 (children n) ns0 path Hcs Hns).
  - by rewrite (L_diff_children diff_elements cs0 (children o') ns0 (children n')
                  path Hl Hnl).
  - intros co co' cn cn' p Hco Hcc Hcn. destruct Hcc as [c c' Hc|].
    + rewrite Forall_forall in IH. apply IH; [by apply Hco|done|done].
    + by apply related_diff_elements_absent.
Qed.
End related.

(** ** Ignored attributes *)

Lemma ignored_agree_refl a : ignored_agree a a.
Proof. by split. Qed.

Lemma same_but_ignored_refl e : same_but_ignored e e.
Proof.
  induction e as [t a x cs IH] using Element_ind.
  apply (related_node _ _ t a a x cs cs cs); [apply ignored_agree_refl| |done].
  by apply Forall_Forall2_diag.
Qed.

Lemma set_attribute_at_same_but_ignored pos name value T T' :
  name ∈ IGNORED_ATTRIBUTES →
  set_attribute_at pos name value T = Some T' → same_but_ignored T T'.
Proof.
  intros Hname. revert T T'. induction pos as [|i pos IH]; intros [t a x cs] T'; simpl.
  - case_decide as Ha; [|done]. intros [= <-].
    apply (related_node _ _ t a _ x cs cs cs); [|by apply Forall_Forall2_diag,
      Forall_forall; intros; apply same_but_ignored_refl|done].
    split.
    + rewrite dom_insert_L. symmetry. apply subseteq_union_1_L.
      by apply singleton_subseteq_l, elem_of_dom.
    + intros k Hk. rewrite lookup_insert_ne; [done|]. by intros <-.
  - destruct (cs !! i) as [c|] eqn:Hc; [|done]. simpl.
    destruct (set_attribute_at pos name value c) as [c'|] eqn:Hc'; [|done]. simpl.
    intros [= <-].
    apply (related_node _ _ t a a x cs (<[i:=c']> cs) (<[i:=c']> cs));
      [apply ignored_agree_refl| |done].
    rewrite <- (list_insert_id cs i c) at 1 by done.
    apply Forall2_insert; [|by apply IH].
    apply Forall_Forall2_diag, Forall_forall. intros; apply same_but_ignored_refl.
Qed.

(** The comparator does not read the values of ignored attributes. *)
Lemma diff_elements_same_but_ignored A A' B B' path :
  same_but_ignored A A' → same_but_ignored B B' →
  diff_elements (Some A) (Some B) path = diff_elements (Some A') (Some B') path.
Proof.
  intros HA HB.
  apply (related_diff_elements ignored_agree eq); try done.
  - by intros l l' ->.
  - by intros l l' ->.
  - by intros l l' ->.
  - by constructor.
Qed.

(** ** Rearranged objects *)

Lemma filter_at_most_one {A B} `{EqDecision B} (f : A → B) (v : B) (l : list A) :
  NoDup (f <$> l) → length (filter (λ c, f c = v) l) ≤ 1.
Proof.
  induction l as [|c l IH]; [simpl; lia|].
  rewrite fmap_cons, NoDup_cons. intros [Hc Hl].
  rewrite filter_cons. case_decide as Hv; [|by apply IH].
  assert (filter (λ c0, f c0 = v) l = []) as ->; [|simpl; lia].
  destruct (filter _ l) as [|c' g] eqn:Hg; [done|].
  assert (c' ∈ filter (λ c0, f c0 = v) l) as Hin by (rewrite Hg; left).
  apply list_elem_of_filter in Hin as [Hc' Hin].
  destruct Hc. rewrite Hv, <- Hc'. by apply list_elem_of_fmap_2.
Qed.

Lemma key_dict_Permutation l l' :
  l ≡ₚ l' → NoDup (get_object_key <$> l) → key_dict l = key_dict l'.
Proof.
  intros Hperm Hnodup.
  destruct (is_Some_iff_cases (key_dict l) (key_dict l'))
    as [[-> ->]|(d & d' & Hd & Hd')]; [|done|].
  { rewrite !key_dict_is_Some. by rewrite Hperm. }
  rewrite Hd, Hd'. f_equal. apply map_eq. intros k.
  rewrite (key_dict_lookup _ _ k Hd), (key_dict_lookup _ _ k Hd').
  pose proof (filter_at_most_one get_object_key (Some k) l Hnodup) as Hlen.
  assert (filter (λ c, get_object_key c = Some k) l
            ≡ₚ filter (λ c, get_object_key c = Some k) l') as Hf by (by rewrite Hperm).
  destruct (filter (λ c, get_object_key c = Some k) l) as [|c [|c2 g]];
    simpl in Hlen; [| |lia].
  - by apply Permutation_nil_l in Hf as <-.
  - by apply Permutation_singleton_l in Hf as <-.
Qed.

(** Rearranging objects with distinct keys does not change the diff. *)
Lemma diff_elements_reordered A A' B B' path :
  reordered A A' → reordered B B' →
  diff_elements (Some A) (Some B) path = diff_elements (Some A') (Some B') path.
Proof.
  intros HA HB.
  apply (related_diff_elements eq distinct_reordering); try done.
  - intros a a' ->. apply ignored_agree_refl.
  - by intros l l' [->|[[? _] _]].
  - by intros l l' [->|[[_ ?] _]].
  - intros l l' [->|[[_ ?] ?]]; [done|]. by apply key_dict_Permutation.
  - by constructor.
Qed.

(** ** A self-comparison reports nothing *)

Lemma for_each_quiet {A} (f : A → option (list DiffRecord)) xs :
  (∀ x, x ∈ xs → quiet (f x)) → quiet (for_each f xs).
Proof.
  induction xs as [|x xs IH]; intros Hf ds; simpl; [by intros [= <-]|].
  destruct (f x) as [d|] eqn:Hd; [|done]. simpl.
  destruct (for_each f xs) as [rest|] eqn:Hrest; [|done]. simpl. intros [= <-].
  rewrite (Hf x (list_elem_of_here _ _) d Hd).
  by rewrite (IH (λ y Hy, Hf y (list_elem_of_further _ _ _ Hy)) rest).
Qed.

Lemma quiet_None : quiet None.
Proof. by intros ds. Qed.

Lemma quiet_nil : quiet (Some []).
Proof. by intros ds [= <-]. Qed.

Section self_quiet.
Variable rec : option Element → option Element → string → option (list DiffRecord).

Lemma handle_object_nodes_self_quiet l path :
  (∀ c p, c ∈ l → quiet (rec (Some c) (Some c) p)) →
  quiet (handle_object_nodes rec l l path).
Proof.
  intros Hrec. unfold handle_object_nodes.
  destruct (key_dict l) as [d|] eqn:Hd; [|apply quiet_None]. simpl.
  apply for_each_quiet. intros key Hkey.
  destruct (format_object_key key); [|apply quiet_None]. simpl.
  destruct (d !! key) as [c|] eqn:Hc; [|apply quiet_None].
  apply Hrec. by eapply key_dict_lookup_elem.
Qed.

Lemma handle_default_children_self_quiet l path tag :
  (∀ c p, c ∈ l → quiet (rec (Some c) (Some c) p)) →
  quiet (handle_default_children rec l l path tag).
Proof.
  intros Hrec. unfold handle_default_children.
  apply for_each_quiet. intros i Hi. apply elem_of_seq in Hi.
  destruct (lookup_lt_is_Some_2 l i) as [c Hc]; [lia|].
  rewrite Hc. apply Hrec. by eapply list_elem_of_lookup_2.
Qed.

Lemma diff_children_self_quiet cs path :
  (∀ c p, c ∈ cs → quiet (rec (Some c) (Some c) p)) →
  quiet (diff_children rec cs cs path).
Proof.
  intros Hrec. unfold diff_children.
  apply for_each_quiet. intros t _. rewrite group_by_tag_default.
  assert (∀ c, c ∈ filter (λ e, tag e = t) (filter_children cs) → c ∈ cs) as Hin.
  { intros c [_ Hc]%list_elem_of_filter. by apply filter_children_elem. }
  repeat case_decide.
  - rewrite handle_plist_keys_same_set by done. apply quiet_nil.
  - apply handle_object_nodes_self_quiet. intros c p Hc. by apply Hrec, Hin.
  - apply handle_default_children_self_quiet. intros c p Hc. by apply Hrec, Hin.
Qed.
End self_quiet.

Lemma diff_elements_self_quiet T path : quiet (diff_elements (Some T) (Some T) path).
Proof.
  revert path. induction T as [t a x cs IH] using Element_ind. intros path.
  rewrite diff_elements_unfold. unfold diff_elements_body. simpl.
  rewrite compare_tags_same by done.
  rewrite decide_False by (by intros []).
  rewrite compare_text_self, compare_attributes_self.
  pose proof (diff_children_self_quiet diff_elements cs path) as Hq.
  destruct (diff_children diff_elements cs cs path) as [ds|]; [|apply quiet_None].
  simpl. rewrite (Hq (λ c p Hc, proj1 (Forall_forall _ _) IH c Hc p) ds eq_refl).
  apply quiet_nil.
Qed.

(** C8: changing the value of an ignored attribute on one node of [T] does
    not change what the comparator does: [T] against the changed tree
    behaves as [T] against itself. The run reports no record at all, hence
    no mismatch; it returns the empty list whenever the keys of the objects
    of [T] can be derived. *)
Theorem ignored_attribute_noninterference (T T' : Element) (pos : list nat)
    (name value path : string) :
  name ∈ IGNORED_ATTRIBUTES →
  set_attribute_at pos name value T = Some T' →
  same_records (diff_elements (Some T) (Some T') path)
               (diff_elements (Some T) (Some T) path)
  ∧ quiet (diff_elements (Some T) (Some T') path)
  ∧ (keys_defined T → diff_elements (Some T) (Some T') path = Some []).
Proof.
  intros Hname Hset.
  assert (diff_elements (Some T) (Some T') path =
          diff_elements (Some T) (Some T) path) as Heq.
  { symmetry. apply diff_elements_same_but_ignored.
    - apply same_but_ignored_refl.
    - by eapply set_attribute_at_same_but_ignored. }
  rewrite Heq. split_and!.
  - apply same_records_refl.
  - apply diff_elements_self_quiet.
  - apply diff_elements_self.
Qed.

(** C3 (as amended): rearranging [object] siblings, in either tree and at
    any depth, leaves the records of the comparison unchanged, provided the
    siblings rearranged under one parent have pairwise distinct keys. *)
Theorem diff_elements_object_order (A A' B B' : Element) (path : string) :
  reordered A A' → reordered B B' →
  same_records (diff_elements (Some A') (Some B') path)
               (diff_elements (Some A) (Some B) path).
Proof.
  intros HA HB. rewrite (diff_elements_reordered A A' B B' path HA HB).
  unfold same_records. by destruct (diff_elements _ _ _); constructor.
Qed.

(** ** Exchanging the two sides *)


Lemma for_each_singleton_map {A} (f : A → option (list DiffRecord))
    (g : A → DiffRecord) xs :
  (∀ x, x ∈ xs → f x = Some [g x]) → for_each f xs = Some (g <$> xs).
Proof.
  induction xs as [|x xs IH]; intros Hf; [done|]. simpl.
  rewrite (Hf x) by left. simpl. rewrite IH; [done|].
  intros y Hy. apply Hf. by right.
Qed.





(** *** The set-of-strings strategy *)

(** The records of the strategy when the change is not a single rename. *)
Lemma handle_plist_keys_unfold old_list new_list path tag :
  let old_keys := stripped_text <$> old_list in
  let new_keys := stripped_text <$> new_list in
  let missing := removed old_keys new_keys in
  let extra := removed new_keys old_keys in
  let subpath keys k :=
    path +:+ "." +:+ tag +:+ "[" +:+ pretty (default 0 (py_index k keys)) +:+ "]" in
  handle_plist_keys old_list new_list path tag =
    if decide (list_to_set old_keys =@{gset string} list_to_set new_keys) then Some []
    else if decide (length missing = 1 ∧ length extra = 1) then
      m ← missing !! 0;
      e ← extra !! 0;
      Some [(TYPE_MISMATCH,
             mkInfo CATEGORY_MISMATCH (subpath old_keys m +:+ " text")
               (Some (PyStr m)) (Some (PyStr e)) None (Some "text"))]
    else
      Some (((λ k, (TYPE_MISSING,
                    mkInfo CATEGORY_MISSING (subpath old_keys k +:+ " text")
                      (Some (PyStr k)) None (Some k) None)) <$> missing)
            ++ ((λ k, (TYPE_EXTRA,
                       mkInfo CATEGORY_EXTRA (subpath new_keys k +:+ " text")
                         None (Some (PyStr k)) (Some k) None)) <$> extra)).
Proof.
  intros old_keys new_keys missing extra subpath. unfold handle_plist_keys.
  fold old_keys new_keys. fold (removed old_keys new_keys) (removed new_keys old_keys).
  fold missing extra.
  assert (∀ k, k ∈ missing → k ∈ old_keys) as Hm
    by (by intros k [_ ?]%list_elem_of_filter).
  assert (∀ k, k ∈ extra → k ∈ new_keys) as He
    by (by intros k [_ ?]%list_elem_of_filter).
  case_decide; [done|]. case_decide as Hone.
  - destruct missing as [|m [|]], extra as [|e [|]]; try (by destruct Hone). simpl.
    destruct (py_index_elem_of m old_keys) as [i Hi]; [apply Hm; left|].
    unfold subpath. by rewrite Hi.
  - rewrite (for_each_singleton_map _
      (λ k, (TYPE_MISSING,
             mkInfo CATEGORY_MISSING (subpath old_keys k +:+ " text")
               (Some (PyStr k)) None (Some k) None)) missing).
    2:{ intros k Hk. destruct (py_index_elem_of k old_keys (Hm k Hk)) as [i Hi].
        unfold subpath. by rewrite Hi. }
    rewrite (for_each_singleton_map _
      (λ k, (TYPE_EXTRA,
             mkInfo CATEGORY_EXTRA (subpath new_keys k +:+ " text")
               None (Some (PyStr k)) (Some k) None)) extra).
    2:{ intros k Hk. destruct (py_index_elem_of k new_keys (He k Hk)) as [i Hi].
        unfold subpath. by rewrite Hi. }
    done.
Qed.


(** *** The other strategies and the dispatcher *)

Section swap.
Variable rec : option Element → option Element → string → option (list DiffRecord).





End swap.

(** *** The comparator *)









Lemma reordered_refl e : reordered e e.
Proof.
  induction e as [t a x cs IH] using Element_ind.
  apply (related_node _ _ t a a x cs cs cs); [done| |by left].
  by apply Forall_Forall2_diag.
Qed.

Lemma two_mappings_reordered : reordered two_mappings two_mappings_exchanged.
Proof.
  unfold two_mappings, two_mappings_exchanged, database.
  eapply related_node; [done| |].
  - apply Forall_Forall2_diag, Forall_forall. intros; apply reordered_refl.
  - right. split; [split|].
    + reflexivity.
    + apply perm_swap.
    + apply (bool_decide_unpack _). by vm_compute.
Qed.

(** The two mappings exchanged: the same records. *)
Lemma diff_elements_object_order_witness :
  same_records
    (diff_elements (Some two_mappings_exchanged) (Some one_mapping) "database")
    (diff_elements (Some two_mappings) (Some one_mapping) "database").
Proof.
  apply (diff_elements_object_order two_mappings two_mappings_exchanged
           one_mapping one_mapping "database").
  - apply two_mappings_reordered.
  - apply reordered_refl.
Defined.

(** C3, counterexample: two objects of an unknown type share the key
    [("object",)], so only the last one is compared, and exchanging them
    changes the diff. *)
Lemma diff_elements_object_order_counterexample :
  [leaf "object" "b"; leaf "object" "a"] ≡ₚ [leaf "object" "a"; leaf "object" "b"]
  ∧ diff_elements (Some (database [leaf "object" "a"; leaf "object" "b"]))
                  (Some (database [leaf "object" "a"])) "database" =
    Some [(TYPE_MISMATCH,
           mkInfo CATEGORY_MISMATCH "database.object[('object',)] text"
             (Some (PyStr "b")) (Some (PyStr "a")) None (Some "text"))]
  ∧ diff_elements (Some (database [leaf "object" "b"; leaf "object" "a"]))
                  (Some (database [leaf "object" "a"])) "database" = Some [].
Proof. split; [apply perm_swap | by vm_compute]. Qed.

(** The identifier of an entity changed. *)
Lemma ignored_attribute_noninterference_witness :
  same_records
    (diff_elements (Some (database [entity_node "z102"]))
                   (Some (database [entity_node "z7"])) "database")
    (diff_elements (Some (database [entity_node "z102"]))
                   (Some (database [entity_node "z102"])) "database")
  ∧ quiet (diff_elements (Some (database [entity_node "z102"]))
                         (Some (database [entity_node "z7"])) "database")
  ∧ diff_elements (Some (database [entity_node "z102"]))
                  (Some (database [entity_node "z7"])) "database" = Some [].
Proof.
  destruct (ignored_attribute_noninterference (database [entity_node "z102"])
              (database [entity_node "z7"]) [0] "id" "z7" "database")
    as (Hsame & Hquiet & Hnil).
  - apply (bool_decide_unpack _). by vm_compute.
  - by vm_compute.
  - split_and!; [exact Hsame | exact Hquiet | apply Hnil; by vm_compute].
Defined.


(** * Further properties of the comparator *)

(** ** Where the comparator can raise *)

(** X3: Key derivation succeeds exactly when every sub-field that the key reads
    and that is present has a text. *)
Theorem get_object_key_defined_iff (elem : Element) :
  is_Some (get_object_key elem) ↔
  ∀ name sub, name ∈ key_fields (get elem "type") →
              find_attribute elem name = Some sub → is_Some (text sub).
Proof.
  rewrite <- not_eq_None_Some, get_object_key_None. split.
  - intros Hnone name sub Hname Hfind.
    destruct (text sub) as [x|] eqn:Hx; [by eexists|].
    exfalso. apply Hnone. by exists name, sub.
  - intros Hall (name & sub & Hname & Hfind & Hx).
    destruct (Hall name sub Hname Hfind) as [x' Hx']. congruence.
Qed.

Lemma format_element_is_Some c :
  (tag c = "object" → is_Some (get_object_key c)) → is_Some (format_element c).
Proof.
  intros Hkey. unfold format_element.
  case_decide as Htag; [|by eexists].
  destruct (Hkey Htag) as [k Hk]. case_decide as Htyp.
  - unfold get_object_key in Hk. rewrite decide_True in Hk by done.
    unfold create_event_entity_mapping_key, format_event_entity_mapping in *.
    cbn zeta in *.
    destruct (text_or_empty (find_attribute c "sourcename")); [|done].
    destruct (text_or_empty (find_attribute c "destinationname")); [|done].
    destruct (text_or_empty (find_attribute c "mappingtypename")); [|done].
    by eexists.
  - rewrite Hk. simpl.
    destruct (format_object_key_of_key c k Htag Hk) as [fk ->]. by eexists.
Qed.

(** X4: The descriptions of an [object] node are defined whenever its key is:
    [format_object_key] does not raise on a key that [get_object_key]
    derived from it, and [format_element] does not raise on the node. *)
Theorem format_defined (c : Element) (k : ObjectKey) :
  tag c = "object" → get_object_key c = Some k →
  is_Some (format_object_key k) ∧ is_Some (format_element c).
Proof.
  intros Htag Hk. split; [by eapply format_object_key_of_key|].
  apply format_element_is_Some. intros _. by eexists.
Qed.

Lemma format_defined_witness :
  is_Some (format_object_key [PyStr "XDDEVATTRIBUTEMAPPING"; PyStr "x"])
  ∧ is_Some (format_element (attribute_mapping "x" [])).
Proof.
  apply (format_defined (attribute_mapping "x" [])
           [PyStr "XDDEVATTRIBUTEMAPPING"; PyStr "x"]); by vm_compute.
Defined.

Lemma for_each_is_Some {A} (f : A → option (list DiffRecord)) xs :
  (∀ x, x ∈ xs → is_Some (f x)) → is_Some (for_each f xs).
Proof.
  induction xs as [|x xs IH]; intros Hf; simpl; [by eexists|].
  destruct (Hf x (list_elem_of_here _ _)) as [ds ->]. simpl.
  destruct IH as [rest ->]; [|by eexists].
  intros y Hy. apply Hf. by right.
Qed.

Lemma keys_defined_children t a x cs :
  keys_defined (mkElement t a x cs) →
  Forall (λ c, (tag c = "object" → is_Some (get_object_key c)) ∧ keys_defined c) cs.
Proof.
  simpl. intros Hkeys. apply forallb_True in Hkeys.
  eapply Forall_impl; [exact Hkeys|]. intros c Hc.
  apply andb_True in Hc as [Hc ?]. split; [|done]. by apply bool_decide_unpack in Hc.
Qed.

Section defined.
Variable rec : option Element → option Element → string → option (list DiffRecord).

Lemma handle_object_nodes_is_Some old_list new_list path :
  Forall (λ c, tag c = "object" ∧ is_Some (get_object_key c)) old_list →
  Forall (λ c, tag c = "object" ∧ is_Some (get_object_key c)) new_list →
  (∀ c c' p, c ∈ old_list → c' ∈ new_list → is_Some (rec (Some c) (Some c') p)) →
  is_Some (handle_object_nodes rec old_list new_list path).
Proof.
  intros Hold Hnew Hrec. unfold handle_object_nodes.
  assert (∀ l, Forall (λ c, tag c = "object" ∧ is_Some (get_object_key c)) l →
               is_Some (key_dict l)) as Hdict.
  { intros l Hl. apply key_dict_is_Some. eapply Forall_impl; [exact Hl|].
    by intros ? [_ ?]. }
  destruct (Hdict _ Hold) as [d Hd]. destruct (Hdict _ Hnew) as [d' Hd'].
  rewrite Hd, Hd'. simpl. apply for_each_is_Some. intros key Hkey.
  rewrite Forall_forall in Hold, Hnew.
  assert (∀ l dl c, key_dict l = Some dl → dl !! key = Some c →
            (∀ e, e ∈ l → tag e = "object" ∧ is_Some (get_object_key e)) →
            c ∈ l ∧ is_Some (format_object_key key) ∧ is_Some (format_element c))
    as Hfmt.
  { intros l dl c Hdl Hc Hl.
    destruct (key_dict_lookup_elem _ _ _ _ Hdl Hc) as [Hin Hk].
    destruct (Hl c Hin) as [Htag Hsome]. split_and!; [done| |].
    - by eapply format_object_key_of_key.
    - by apply format_element_is_Some. }
  apply elem_of_elements, elem_of_union in Hkey.
  destruct (d !! key) as [c|] eqn:Hc; destruct (d' !! key) as [c'|] eqn:Hc'.
  - destruct (Hfmt _ _ _ Hd Hc Hold) as (Hin & [fk ->] & _).
    destruct (Hfmt _ _ _ Hd' Hc' Hnew) as (Hin' & _ & _).
    simpl. by apply Hrec.
  - destruct (Hfmt _ _ _ Hd Hc Hold) as (Hin & [fk ->] & [f ->]). by eexists.
  - destruct (Hfmt _ _ _ Hd' Hc' Hnew) as (Hin & [fk ->] & [f ->]). by eexists.
  - destruct Hkey as [Hkey|Hkey]; apply elem_of_dom in Hkey as [? ?]; congruence.
Qed.

Lemma handle_default_children_is_Some old_list new_list path tag :
  (∀ i p, i < length old_list `max` length new_list →
          is_Some (rec (old_list !! i) (new_list !! i) p)) →
  is_Some (handle_default_children rec old_list new_list path tag).
Proof.
  intros Hrec. unfold handle_default_children.
  apply for_each_is_Some. intros i Hi. apply elem_of_seq in Hi.
  apply Hrec. lia.
Qed.
End defined.

Lemma handle_plist_keys_is_Some old_list new_list path tag :
  is_Some (handle_plist_keys old_list new_list path tag).
Proof.
  destruct (handle_plist_keys_length old_list new_list path tag) as (ds & -> & _).
  by eexists.
Qed.

Lemma diff_elements_absent o n path :
  diff_elements None None path = Some []
  ∧ diff_elements (Some o) None path =
      (λ f, [(TYPE_MISSING,
              mkInfo CATEGORY_MISSING path (Some (PyStr f)) None
                     (value_key (get_element_value o)) None)]) <$> format_element o
  ∧ diff_elements None (Some n) path =
      (λ f, [(TYPE_EXTRA,
              mkInfo CATEGORY_EXTRA path None (Some (PyStr f))
                     (value_key (get_element_value n)) None)]) <$> format_element n.
Proof.
  rewrite !diff_elements_unfold. unfold diff_elements_body, check_missing_nodes.
  split_and!; [done| |].
  - by destruct (format_element o).
  - by destruct (format_element n).
Qed.

Lemma diff_elements_is_Some A :
  keys_defined A → ∀ B path, keys_defined B →
  is_Some (diff_elements (Some A) (Some B) path).
Proof.
  induction A as [t a x cs IH] using Element_ind. intros HA [t' a' x' cs'] path HB.
  rewrite diff_elements_unfold. unfold diff_elements_body. simpl.
  case_decide; [by eexists|].
  apply keys_defined_children in HA, HB.
  rewrite Forall_forall in IH, HA, HB.
  match goal with
  | |- is_Some (?r ≫= _) => assert (is_Some r) as [ds ->]; [|by eexists]
  end.
  unfold diff_children. apply for_each_is_Some. intros u _.
  rewrite !group_by_tag_default.
  assert (∀ l c, (∀ e, e ∈ l → (tag e = "object" → is_Some (get_object_key e))
                                ∧ keys_defined e) →
                 c ∈ filter (λ e, tag e = u) (filter_children l) →
                 c ∈ l ∧ tag c = u ∧ keys_defined c
                 ∧ (tag c = "object" → is_Some (get_object_key c))) as Hin.
  { intros l c Hl [Hu Hc]%list_elem_of_filter.
    apply filter_children_elem in Hc. destruct (Hl c Hc). by split_and!. }
  repeat case_decide.
  - apply handle_plist_keys_is_Some.
  - subst u. apply handle_object_nodes_is_Some.
    + apply Forall_forall. intros c Hc.
      destruct (Hin _ _ HA Hc) as (_ & ? & _ & ?). split; auto.
    + apply Forall_forall. intros c Hc.
      destruct (Hin _ _ HB Hc) as (_ & ? & _ & ?). split; auto.
    + intros c c' p Hc Hc'.
      destruct (Hin _ _ HA Hc) as (? & _ & ? & _).
      destruct (Hin _ _ HB Hc') as (? & _ & ? & _).
      by apply IH.
  - apply handle_default_children_is_Some. intros i p Hi.
    set (old_list := filter (λ e, tag e = u) (filter_children cs)).
    set (new_list := filter (λ e, tag e = u) (filter_children cs')).
    assert (∀ l c, (∀ e, e ∈ l → (tag e = "object" → is_Some (get_object_key e))
                                  ∧ keys_defined e) →
                   c ∈ filter (λ e, tag e = u) (filter_children l) →
                   is_Some (format_element c)) as Hfmt.
    { intros l c Hl Hc. destruct (Hin _ _ Hl Hc) as (_ & Htag & _ & _).
      apply format_element_is_Some. intros Hobj. congruence. }
    destruct (old_list !! i) as [c|] eqn:Hc; destruct (new_list !! i) as [c'|] eqn:Hc'.
    + apply list_elem_of_lookup_2 in Hc, Hc'.
      destruct (Hin _ _ HA Hc) as (? & _ & ? & _).
      destruct (Hin _ _ HB Hc') as (? & _ & ? & _).
      by apply IH.
    + apply list_elem_of_lookup_2 in Hc.
      destruct (diff_elements_absent c c p) as (_ & -> & _).
      destruct (Hfmt _ _ HA Hc) as [f ->]. by eexists.
    + apply list_elem_of_lookup_2 in Hc'.
      destruct (diff_elements_absent c' c' p) as (_ & _ & ->).
      destruct (Hfmt _ _ HB Hc') as [f ->]. by eexists.
    + destruct (diff_elements_absent (mkElement t a x cs) (mkElement t a x cs) p)
        as (-> & _). by eexists.
Qed.

(** X1: On two trees in which the key of every [object] can be derived the
    comparison never raises: key derivation is the only source of
    exceptions. *)
Theorem diff_elements_never_raises (A B : Element) (path : string) :
  keys_defined A → keys_defined B →
  is_Some (diff_elements (Some A) (Some B) path).
Proof. intros HA HB. by apply diff_elements_is_Some. Qed.

Lemma diff_elements_never_raises_witness :
  is_Some (diff_elements (Some two_mappings) (Some one_mapping) "database").
Proof.
  apply (diff_elements_never_raises two_mappings one_mapping "database");
    apply (bool_decide_unpack _); by vm_compute.
Defined.

(** X7: A node that is absent on one side gives exactly one record, located at
    the path of the comparison: the node present is described and, when it
    is a leaf with a text, its text is the value. The comparison does not
    descend into the node. Two absent nodes give no record. *)
Theorem diff_elements_absent_side (o n : Element) (path : string) :
  diff_elements None None path = Some []
  ∧ diff_elements (Some o) None path =
      (λ f, [(TYPE_MISSING,
              mkInfo CATEGORY_MISSING path (Some (PyStr f)) None
                     (value_key (get_element_value o)) None)]) <$> format_element o
  ∧ diff_elements None (Some n) path =
      (λ f, [(TYPE_EXTRA,
              mkInfo CATEGORY_EXTRA path None (Some (PyStr f))
                     (value_key (get_element_value n)) None)]) <$> format_element n.
Proof. apply diff_elements_absent. Qed.

(** X5: Idempotence: a tree in which the key of every [object] can be derived
    compares equal to itself, at every path. *)
Theorem diff_elements_idempotent (T : Element) (path : string) :
  keys_defined T → diff_elements (Some T) (Some T) path = Some [].
Proof. apply diff_elements_self. Qed.

Lemma diff_elements_idempotent_witness :
  diff_elements (Some two_mappings) (Some two_mappings) "database" = Some [].
Proof.
  apply (diff_elements_idempotent two_mappings "database").
  apply (bool_decide_unpack _). by vm_compute.
Defined.

(** X6: A tree compared with itself never yields a record: the run raises or
    returns the empty list. *)
Theorem diff_elements_self_no_record (T : Element) (path : string) :
  diff_elements (Some T) (Some T) path = None
  ∨ diff_elements (Some T) (Some T) path = Some [].
Proof.
  pose proof (diff_elements_self_quiet T path) as Hquiet. unfold quiet in Hquiet.
  destruct (diff_elements (Some T) (Some T) path) as [ds|]; [right|by left].
  by rewrite (Hquiet ds).
Qed.

(** ** What every record looks like *)

Lemma below_app path rest d : below (path +:+ rest) d → below path d.
Proof. intros [r Hr]. exists (rest +:+ r). by rewrite Hr, str_app_assoc. Qed.

Lemma below_well_formed_app path rest d :
  below (path +:+ rest) d ∧ well_formed d → below path d ∧ well_formed d.
Proof. intros [? ?]. split; [by eapply below_app|done]. Qed.

Lemma for_each_Forall {A} (Q : DiffRecord → Prop)
    (f : A → option (list DiffRecord)) xs ds :
  (∀ x es, x ∈ xs → f x = Some es → Forall Q es) →
  for_each f xs = Some ds → Forall Q ds.
Proof.
  revert ds. induction xs as [|x xs IH]; intros ds Hf; simpl.
  - intros [= <-]. constructor.
  - destruct (f x) as [es|] eqn:Hx; [|done]. simpl.
    destruct (for_each f xs) as [rest|] eqn:Hrest; [|done]. simpl.
    intros [= <-]. apply Forall_app. split.
    + eapply Hf; [left|done].
    + apply IH; [|done]. intros y es' Hy. apply Hf. by right.
Qed.

Lemma mismatch_well_formed path old new sub :
  sub ∈ ["tag"; "text"; "attribute"] →
  well_formed (TYPE_MISMATCH,
               mkInfo CATEGORY_MISMATCH path (Some old) (Some new) None (Some sub)).
Proof.
  intros Hsub. left. unfold mismatch_record. simpl. split_and!; try done.
  by apply (list_elem_of_fmap_2 Some) in Hsub.
Qed.

Lemma missing_well_formed path f v :
  well_formed (TYPE_MISSING, mkInfo CATEGORY_MISSING path (Some (PyStr f)) None v None).
Proof. right. left. unfold missing_record. simpl. split_and!; try done. by eexists. Qed.

Lemma extra_well_formed path f v :
  well_formed (TYPE_EXTRA, mkInfo CATEGORY_EXTRA path None (Some (PyStr f)) v None).
Proof. right. right. unfold extra_record. simpl. split_and!; try done. by eexists. Qed.

Lemma below_here path rest d : d_path d.2 = path +:+ rest → below path d.
Proof. intros Hd. by exists rest. Qed.

Lemma below_refl path d : d_path d.2 = path → below path d.
Proof.
  intros Hd. exists "". rewrite Hd. clear. induction path as [|c s IH]; [done|].
  by rewrite str_app_cons, <- IH.
Qed.

Lemma compare_tags_shape o n path :
  Forall (λ d, below path d ∧ well_formed d) (compare_tags o n path).
Proof.
  unfold compare_tags. case_decide; [|constructor].
  apply Forall_singleton. split.
  - by eapply below_here.
  - apply mismatch_well_formed. left.
Qed.

Lemma compare_text_shape o n path :
  Forall (λ d, below path d ∧ well_formed d) (compare_text o n path).
Proof.
  unfold compare_text. case_decide; [constructor|]. cbn zeta.
  case_decide; [|constructor].
  apply Forall_singleton. split.
  - by eapply below_here.
  - apply mismatch_well_formed. right. left.
Qed.

Lemma compare_attributes_elem d o n path :
  d ∈ compare_attributes o n path ↔
  (∃ attr, (attr ∉ IGNORED_ATTRIBUTES) ∧ (get o attr ≠ get n attr)
           ∧ d = (TYPE_MISMATCH,
                  mkInfo CATEGORY_MISMATCH (path +:+ " attribute '" +:+ attr +:+ "'")
                         (Some (get o attr)) (Some (get n attr)) None
                         (Some "attribute"))).
Proof.
  unfold compare_attributes. cbn zeta.
  rewrite list_elem_of_In, in_flat_map. split.
  - intros (attr & Hattr & Hd). apply list_elem_of_In in Hattr, Hd.
    apply list_elem_of_filter in Hattr as [Hign _].
    case_decide as Hne; [|by apply elem_of_nil in Hd].
    apply list_elem_of_singleton in Hd. by exists attr.
  - intros (attr & Hign & Hne & ->). exists attr. split.
    + apply list_elem_of_In, list_elem_of_filter. split; [done|].
      apply elem_of_elements, elem_of_union. rewrite !elem_of_dom.
      unfold get in Hne.
      destruct (attrib o !! attr) eqn:Ho; [left; by eexists|].
      destruct (attrib n !! attr) eqn:Hn; [right; by eexists|]. done.
    + apply list_elem_of_In. rewrite decide_True by done. left.
Qed.

Lemma compare_attributes_shape o n path :
  Forall (λ d, below path d ∧ well_formed d) (compare_attributes o n path).
Proof.
  apply Forall_forall. intros d (attr & _ & _ & ->)%compare_attributes_elem. split.
  - by eapply below_here.
  - apply mismatch_well_formed. right. right. left.
Qed.

Lemma handle_plist_keys_shape old_list new_list path tag ds :
  handle_plist_keys old_list new_list path tag = Some ds →
  Forall (λ d, below path d ∧ well_formed d) ds.
Proof.
  rewrite handle_plist_keys_unfold. cbn zeta.
  assert (∀ i rest, (path +:+ "." +:+ tag +:+ "[" +:+ i +:+ "]") +:+ rest
                    = path +:+ ("." +:+ tag +:+ "[" +:+ i +:+ "]" +:+ rest)) as Hpath.
  { intros i rest. by rewrite !str_app_assoc. }
  repeat case_decide.
  - intros [= <-]. constructor.
  - destruct (removed (stripped_text <$> old_list) _ !! 0) as [m|]; simpl; [|done].
    destruct (removed (stripped_text <$> new_list) _ !! 0) as [e|]; simpl; [|done].
    intros [= <-]. apply Forall_singleton. split.
    + eapply below_here. simpl. apply Hpath.
    + apply mismatch_well_formed. right. left.
  - intros [= <-]. apply Forall_app. split; apply Forall_fmap, Forall_forall;
      intros k _; simpl; split.
    + eapply below_here. simpl. apply Hpath.
    + apply missing_well_formed.
    + eapply below_here. simpl. apply Hpath.
    + apply extra_well_formed.
Qed.

Lemma diff_elements_absent_shape n path ds :
  diff_elements None n path = Some ds →
  Forall (λ d, below path d ∧ well_formed d) ds.
Proof.
  destruct n as [n|].
  - destruct (diff_elements_absent n n path) as (_ & _ & ->).
    destruct (format_element n); [|done]. intros [= <-]. apply Forall_singleton. split.
    + by apply below_refl.
    + apply extra_well_formed.
  - destruct (diff_elements_absent (mkElement "" ∅ None []) (mkElement "" ∅ None []) path)
      as (-> & _). intros [= <-]. constructor.
Qed.

Section shape.
Variable rec : option Element → option Element → string → option (list DiffRecord).

Lemma handle_object_nodes_shape old_list new_list path ds :
  (∀ c n p es, c ∈ old_list → rec (Some c) n p = Some es →
               Forall (λ d, below p d ∧ well_formed d) es) →
  handle_object_nodes rec old_list new_list path = Some ds →
  Forall (λ d, below path d ∧ well_formed d) ds.
Proof.
  intros Hrec. unfold handle_object_nodes.
  destruct (key_dict old_list) as [d|] eqn:Hd; [|done]. simpl.
  destruct (key_dict new_list) as [d'|] eqn:Hd'; [|done]. simpl.
  apply for_each_Forall. intros key es _.
  destruct (format_object_key key) as [fk|]; [|done]. simpl.
  destruct (d !! key) as [c|] eqn:Hc; destruct (d' !! key) as [c'|] eqn:Hc'.
  - intros Hes. destruct (key_dict_lookup_elem _ _ _ _ Hd Hc) as [Hin _].
    eapply Forall_impl; [by eapply Hrec|]. intros r. apply below_well_formed_app.
  - destruct (format_element c) as [f|]; [|done]. simpl. intros [= <-].
    apply Forall_singleton. split; [by eapply below_here | apply missing_well_formed].
  - destruct (format_element c') as [f|]; [|done]. simpl. intros [= <-].
    apply Forall_singleton. split; [by eapply below_here | apply extra_well_formed].
  - done.
Qed.

Lemma handle_default_children_shape old_list new_list path tag ds :
  (∀ c n p es, c ∈ old_list → rec (Some c) n p = Some es →
               Forall (λ d, below p d ∧ well_formed d) es) →
  (∀ n p es, rec None n p = Some es →
             Forall (λ d, below p d ∧ well_formed d) es) →
  handle_default_children rec old_list new_list path tag = Some ds →
  Forall (λ d, below path d ∧ well_formed d) ds.
Proof.
  intros Hrec Hnone. unfold handle_default_children.
  apply for_each_Forall. intros i es _. cbn zeta. intros Hes.
  assert (∀ p, rec (old_list !! i) (new_list !! i) p = Some es →
               Forall (λ d, below p d ∧ well_formed d) es) as Hi.
  { intros p. destruct (old_list !! i) as [c|] eqn:Hc.
    - apply Hrec. by eapply list_elem_of_lookup_2.
    - apply Hnone. }
  case_decide.
  - eapply Forall_impl; [by apply Hi|]. intros r. apply below_well_formed_app.
  - eapply Forall_impl; [by apply Hi|]. intros r. apply below_well_formed_app.
Qed.

Lemma diff_children_shape old_children new_children path ds :
  (∀ c n p es, c ∈ old_children → rec (Some c) n p = Some es →
               Forall (λ d, below p d ∧ well_formed d) es) →
  (∀ n p es, rec None n p = Some es →
             Forall (λ d, below p d ∧ well_formed d) es) →
  diff_children rec old_children new_children path = Some ds →
  Forall (λ d, below path d ∧ well_formed d) ds.
Proof.
  intros Hrec Hnone. unfold diff_children.
  apply for_each_Forall. intros u es _. rewrite !group_by_tag_default.
  assert (∀ c, c ∈ filter (λ e, tag e = u) (filter_children old_children) →
               c ∈ old_children) as Hin.
  { intros c [_ Hc]%list_elem_of_filter. by apply filter_children_elem. }
  repeat case_decide.
  - apply handle_plist_keys_shape.
  - apply handle_object_nodes_shape. intros c n p es' Hc. apply Hrec. by apply Hin.
  - apply handle_default_children_shape; [|done].
    intros c n p es' Hc. apply Hrec. by apply Hin.
Qed.
End shape.

Lemma diff_elements_shape old_elem new_elem path ds :
  diff_elements old_elem new_elem path = Some ds →
  Forall (λ d, below path d ∧ well_formed d) ds.
Proof.
  destruct old_elem as [A|]; [|apply diff_elements_absent_shape].
  revert new_elem path ds.
  induction A as [t a x cs IH] using Element_ind. intros [B|] path ds.
  - rewrite diff_elements_unfold. unfold diff_elements_body. simpl.
    case_decide.
    + intros [= <-]. apply compare_tags_shape.
    + destruct (diff_children _ _ _ _) as [child_diffs|] eqn:Hchildren; [|done].
      simpl. intros [= <-]. rewrite !Forall_app. split_and!.
      * apply compare_text_shape.
      * apply compare_attributes_shape.
      * eapply diff_children_shape; [| |exact Hchildren].
        -- intros c n p es Hc. rewrite Forall_forall in IH. by apply IH.
        -- apply diff_elements_absent_shape.
  - destruct (diff_elements_absent (mkElement t a x cs) (mkElement t a x cs) path)
      as (_ & -> & _).
    destruct (format_element _); [|done]. intros [= <-]. apply Forall_singleton. split.
    + by apply below_refl.
    + apply missing_well_formed.
Qed.

(** X8: Every record that a comparison returns is located at or below the path
    of the comparison: its path extends that path. *)
Theorem diff_elements_paths_extend (old_elem new_elem : option Element)
    (path : string) (ds : list DiffRecord) :
  diff_elements old_elem new_elem path = Some ds →
  Forall (below path) ds.
Proof.
  intros Hds. eapply Forall_impl; [by eapply diff_elements_shape|]. by intros d [? _].
Qed.

Lemma diff_elements_paths_extend_witness :
  Forall (below "database")
    [(TYPE_MISMATCH,
      mkInfo CATEGORY_MISMATCH "database.plist.dict.key[1] text"
        (Some (PyStr "M")) (Some (PyStr "N")) None (Some "text"))].
Proof.
  apply (diff_elements_paths_extend
           (Some (plist_dict [leaf "key" "K"; leaf "key" "M"]))
           (Some (plist_dict [leaf "key" "N"; leaf "key" "K"])) "database").
  by vm_compute.
Defined.

(** X9: Every record that a comparison returns is a mismatch with both sides
    and a subtype, a missing node with a description of the old side only,
    or an extra node with a description of the new side only; the category
    is the one of the record's type. *)
Theorem diff_elements_records_well_formed (old_elem new_elem : option Element)
    (path : string) (ds : list DiffRecord) :
  diff_elements old_elem new_elem path = Some ds →
  Forall well_formed ds.
Proof.
  intros Hds. eapply Forall_impl; [by eapply diff_elements_shape|]. by intros d [_ ?].
Qed.

Lemma diff_elements_records_well_formed_witness :
  Forall well_formed
    [(TYPE_MISMATCH,
      mkInfo CATEGORY_MISMATCH "database.plist.dict.key[1] text"
        (Some (PyStr "M")) (Some (PyStr "N")) None (Some "text"))].
Proof.
  apply (diff_elements_records_well_formed
           (Some (plist_dict [leaf "key" "K"; leaf "key" "M"]))
           (Some (plist_dict [leaf "key" "N"; leaf "key" "K"])) "database").
  by vm_compute.
Defined.

(** X10: [compare_attributes] returns one mismatch for each attribute name that
    is not ignored and whose values on the two nodes differ (an attribute
    that one node lacks has the value [None]), and nothing else. *)
Theorem compare_attributes_records (d : DiffRecord) (o n : Element) (path : string) :
  d ∈ compare_attributes o n path ↔
  (∃ attr, (attr ∉ IGNORED_ATTRIBUTES) ∧ (get o attr ≠ get n attr)
           ∧ d = (TYPE_MISMATCH,
                  mkInfo CATEGORY_MISMATCH (path +:+ " attribute '" +:+ attr +:+ "'")
                         (Some (get o attr)) (Some (get n attr)) None
                         (Some "attribute"))).
Proof. apply compare_attributes_elem. Qed.

(** ** Grouping and filtering of children *)

(** X13: [group_by_tag] maps a tag to the elements with that tag, in the order
    of the list; no group is empty. *)
Theorem group_by_tag_groups (l : list Element) (t : string) (g : list Element) :
  group_by_tag l !! t = Some g ↔ g ≠ [] ∧ g = filter (λ e, tag e = t) l.
Proof.
  rewrite group_by_tag_lookup. cbn zeta. case_decide as Hnil; split.
  - done.
  - intros [Hg ->]. done.
  - intros [= <-]. done.
  - by intros [_ ->].
Qed.

Lemma filter_tag_filter_children u l :
  filter (λ e, tag e = u) (filter_children l) =
  filter_children (filter (λ e, tag e = u) l).
Proof.
  unfold filter_children. cbn zeta. induction l as [|c l IH]; [done|].
  rewrite !filter_cons.
  repeat (case_decide; rewrite ?filter_cons); try done; by rewrite IH.
Qed.

Lemma filter_children_ignored_child l1 c l2 :
  ignored_child c → filter_children (l1 ++ c :: l2) = filter_children (l1 ++ l2).
Proof.
  intros [Htag Hname]. unfold filter_children. cbn zeta.
  rewrite !filter_app, filter_cons_False; [done|].
  intros Hkeep. by apply Hkeep.
Qed.

Section groups.
Variable rec : option Element → option Element → string → option (list DiffRecord).

Lemma diff_children_same_groups cs cs' ns ns' path :
  same_groups cs cs' → same_groups ns ns' →
  diff_children rec cs ns path = diff_children rec cs' ns' path.
Proof.
  intros Hcs Hns. unfold diff_children.
  assert (∀ l l', same_groups l l' →
            dom (group_by_tag (filter_children l))
            = dom (group_by_tag (filter_children l'))) as Hdom.
  { intros l l' Hl. apply set_eq. intros u.
    by rewrite !elem_of_dom_group_by_tag_filter, !filter_tag_filter_children, (Hl u). }
  rewrite (Hdom _ _ Hcs), (Hdom _ _ Hns).
  apply for_each_ext. intros u _.
  by rewrite !group_by_tag_default, !filter_tag_filter_children, (Hcs u), (Hns u).
Qed.
End groups.

(** X14: Children are compared tag by tag: for two present nodes, the result
    depends on the children of each side only through the sequence of
    children of each tag. Moving a child past siblings of other tags
    changes nothing. *)
Theorem diff_elements_group_order (t t' : string) (a a' : gmap string string)
    (x x' : option string) (cs cs' ns ns' : list Element) (path : string) :
  same_groups cs cs' → same_groups ns ns' →
  same_records
    (diff_elements (Some (mkElement t a x cs)) (Some (mkElement t' a' x' ns)) path)
    (diff_elements (Some (mkElement t a x cs')) (Some (mkElement t' a' x' ns')) path).
Proof.
  intros Hcs Hns. apply same_records_eq.
  rewrite !diff_elements_unfold. unfold diff_elements_body. simpl.
  by rewrite (diff_children_same_groups _ cs cs' ns ns' path Hcs Hns).
Qed.

Lemma diff_elements_group_order_witness :
  same_records
    (diff_elements (Some (database [leaf "a" "1"; leaf "b" "2"; leaf "a" "3"]))
                   (Some (database [leaf "a" "1"; leaf "a" "4"])) "database")
    (diff_elements (Some (database [leaf "b" "2"; leaf "a" "1"; leaf "a" "3"]))
                   (Some (database [leaf "a" "1"; leaf "a" "4"])) "database").
Proof.
  apply (diff_elements_group_order "database" "database" ∅ ∅ None None).
  - intros u. rewrite !filter_cons, !filter_nil. simpl.
    destruct (decide ("a" = u)); destruct (decide ("b" = u)); congruence.
  - done.
Defined.

(** X15: A child that [filter_children] drops (an [attribute] node named
    [sourcemodeldata], [destinationmodeldata] or [mappingnumber]) does not
    count among the children of a compared node: with or without it, on
    either side, the comparison gives the same result. *)
Theorem diff_elements_ignored_child (t : string) (a : gmap string string)
    (x : option string) (l1 l2 : list Element) (c other : Element) (path : string) :
  ignored_child c →
  same_records
    (diff_elements (Some (mkElement t a x (l1 ++ c :: l2))) (Some other) path)
    (diff_elements (Some (mkElement t a x (l1 ++ l2))) (Some other) path)
  ∧ same_records
      (diff_elements (Some other) (Some (mkElement t a x (l1 ++ c :: l2))) path)
      (diff_elements (Some other) (Some (mkElement t a x (l1 ++ l2))) path).
Proof.
  intros Hc. split; apply same_records_eq;
    rewrite !diff_elements_unfold; unfold diff_elements_body; simpl;
    unfold diff_children; by rewrite (filter_children_ignored_child l1 c l2 Hc).
Qed.

Lemma diff_elements_ignored_child_witness :
  same_records
    (diff_elements
       (Some (mkElement "entity" ∅ None
                ([leaf "name" "Account"]
                 ++ attribute_node "mappingnumber" (Some "3") :: [])))
       (Some (mkElement "entity" ∅ None [leaf "name" "Team"])) "entity")
    (diff_elements
       (Some (mkElement "entity" ∅ None ([leaf "name" "Account"] ++ [])))
       (Some (mkElement "entity" ∅ None [leaf "name" "Team"])) "entity")
  ∧ same_records
      (diff_elements
         (Some (mkElement "entity" ∅ None [leaf "name" "Team"]))
         (Some (mkElement "entity" ∅ None
                  ([leaf "name" "Account"]
                   ++ attribute_node "mappingnumber" (Some "3") :: [])))
         "entity")
      (diff_elements
         (Some (mkElement "entity" ∅ None [leaf "name" "Team"]))
         (Some (mkElement "entity" ∅ None ([leaf "name" "Account"] ++ []))) "entity").
Proof.
  apply (diff_elements_ignored_child "entity" ∅ None [leaf "name" "Account"] []
           (attribute_node "mappingnumber" (Some "3"))
           (mkElement "entity" ∅ None [leaf "name" "Team"]) "entity").
  split; [done|]. apply (bool_decide_unpack _). by vm_compute.
Defined.

(** ** The key-based strategy *)

Lemma for_each_elem {A} (f : A → option (list DiffRecord)) xs ds x :
  for_each f xs = Some ds → x ∈ xs →
  ∃ es, f x = Some es ∧ ∀ d, d ∈ es → d ∈ ds.
Proof.
  revert ds. induction xs as [|y xs IH]; intros ds Hds Hx; [by inversion Hx|].
  simpl in Hds.
  destruct (f y) as [es|] eqn:Hy; [|done]. simpl in Hds.
  destruct (for_each f xs) as [rest|] eqn:Hrest; [|done]. simpl in Hds.
  injection Hds as <-.
  apply elem_of_cons in Hx as [->|Hx].
  - exists es. split; [done|]. intros d Hd. apply elem_of_app. by left.
  - destruct (IH rest eq_refl Hx) as (es' & Hes' & Hsub).
    exists es'. split; [done|]. intros d Hd. apply elem_of_app. right. by apply Hsub.
Qed.

Lemma key_dict_lookup_None l d k :
  key_dict l = Some d → Forall (λ e, get_object_key e ≠ Some k) l → d !! k = None.
Proof.
  intros Hd Hl. rewrite (key_dict_lookup l d k Hd).
  assert (filter (λ c, get_object_key c = Some k) l = []) as ->; [|done].
  clear Hd. induction Hl as [|c l Hc Hl IH]; [done|]. by rewrite filter_cons_False.
Qed.

Section matching.
Variable rec : option Element → option Element → string → option (list DiffRecord).

Lemma handle_object_nodes_key old_list new_list path ds dict_old dict_new k :
  handle_object_nodes rec old_list new_list path = Some ds →
  key_dict old_list = Some dict_old → key_dict new_list = Some dict_new →
  is_Some (dict_old !! k) ∨ is_Some (dict_new !! k) →
  ∃ fk es, format_object_key k = Some fk
    ∧ (∀ d, d ∈ es → d ∈ ds)
    ∧ match dict_old !! k, dict_new !! k with
      | None, None => False
      | None, Some c' =>
          ∃ f, format_element c' = Some f
               ∧ es = [(TYPE_EXTRA,
                        mkInfo CATEGORY_EXTRA (path +:+ ".object[" +:+ fk +:+ "]")
                               None (Some (PyStr f)) None None)]
      | Some c, None =>
          ∃ f, format_element c = Some f
               ∧ es = [(TYPE_MISSING,
                        mkInfo CATEGORY_MISSING (path +:+ ".object[" +:+ fk +:+ "]")
                               (Some (PyStr f)) None None None)]
      | Some c, Some c' =>
          rec (Some c) (Some c') (path +:+ ".object[" +:+ fk +:+ "]") = Some es
      end.
Proof.
  unfold handle_object_nodes. intros Hds Hold Hnew Hk.
  rewrite Hold, Hnew in Hds. simpl in Hds.
  destruct (for_each_elem _ _ _ k Hds) as (es & Hes & Hsub).
  { apply elem_of_elements, elem_of_union. rewrite !elem_of_dom. done. }
  destruct (format_object_key k) as [fk|]; [|done]. simpl in Hes.
  exists fk, es. split_and!; [done..|].
  destruct (dict_old !! k) as [c|]; destruct (dict_new !! k) as [c'|]; try done.
  - destruct (format_element c) as [f|]; [|done]. injection Hes as <-. by exists f.
  - destruct (format_element c') as [f|]; [|done]. injection Hes as <-. by exists f.
Qed.
End matching.

(** X16: Objects are matched by key, not by position: an [object] child whose
    key no sibling of the other side has is reported as one missing node at
    [path.object[<key>]] when it is on the old side, and as one extra node
    when it is on the new side, wherever it stands among its siblings. When
    several siblings of its side have that key, the last one is described. *)
Theorem handle_object_nodes_unmatched
    (rec : option Element → option Element → string → option (list DiffRecord))
    (l others : list Element) (path : string) (k : ObjectKey)
    (c : Element) (ds ds' : list DiffRecord) :
  last (filter (λ e, get_object_key e = Some k) l) = Some c →
  Forall (λ e, get_object_key e ≠ Some k) others →
  handle_object_nodes rec l others path = Some ds →
  handle_object_nodes rec others l path = Some ds' →
  ∃ fk f, format_object_key k = Some fk ∧ format_element c = Some f
    ∧ (TYPE_MISSING,
       mkInfo CATEGORY_MISSING (path +:+ ".object[" +:+ fk +:+ "]")
              (Some (PyStr f)) None None None) ∈ ds
    ∧ (TYPE_EXTRA,
       mkInfo CATEGORY_EXTRA (path +:+ ".object[" +:+ fk +:+ "]")
              None (Some (PyStr f)) None None) ∈ ds'.
Proof.
  intros Hlast Hnone Hds Hds'.
  destruct (key_dict l) as [dict|] eqn:Hl;
    [|by unfold handle_object_nodes in Hds; rewrite Hl in Hds].
  destruct (key_dict others) as [dict'|] eqn:Hothers;
    [|by unfold handle_object_nodes in Hds; rewrite Hl, Hothers in Hds].
  rewrite <- (key_dict_lookup _ _ _ Hl) in Hlast.
  pose proof (key_dict_lookup_None _ _ _ Hothers Hnone) as Hnot.
  destruct (handle_object_nodes_key rec _ _ _ _ _ _ k Hds Hl Hothers)
    as (fk & es & Hfk & Hsub & Hcase); [left; by eexists|].
  destruct (handle_object_nodes_key rec _ _ _ _ _ _ k Hds' Hothers Hl)
    as (fk' & es' & Hfk' & Hsub' & Hcase'); [right; by eexists|].
  rewrite Hlast, Hnot in Hcase, Hcase'.
  destruct Hcase as (f & Hf & ->). destruct Hcase' as (f' & Hf' & ->).
  assert (fk' = fk) as -> by congruence. assert (f' = f) as -> by congruence.
  exists fk, f. split_and!; [done..| |].
  - apply Hsub. left.
  - apply Hsub'. left.
Qed.

Lemma handle_object_nodes_unmatched_witness :
  ∃ fk f, format_object_key [PyStr "XDDEVATTRIBUTEMAPPING"; PyStr "x"] = Some fk
    ∧ format_element (attribute_mapping "x" []) = Some f
    ∧ (TYPE_MISSING,
       mkInfo CATEGORY_MISSING ("database" +:+ ".object[" +:+ fk +:+ "]")
              (Some (PyStr f)) None None None)
      ∈ [(TYPE_MISSING,
          mkInfo CATEGORY_MISSING "database.object[name: x]"
                 (Some (PyStr "[name: x]")) None None None)]
    ∧ (TYPE_EXTRA,
       mkInfo CATEGORY_EXTRA ("database" +:+ ".object[" +:+ fk +:+ "]")
              None (Some (PyStr f)) None None)
      ∈ [(TYPE_EXTRA,
          mkInfo CATEGORY_EXTRA "database.object[name: x]"
                 None (Some (PyStr "[name: x]")) None None)].
Proof.
  apply (handle_object_nodes_unmatched diff_elements
           [attribute_mapping "x" []; attribute_mapping "y" []]
           [attribute_mapping "y" []] "database"
           [PyStr "XDDEVATTRIBUTEMAPPING"; PyStr "x"] (attribute_mapping "x" [])).
  - by vm_compute.
  - apply (bool_decide_unpack _). by vm_compute.
  - by vm_compute.
  - by vm_compute.
Defined.

(** X17: Two [object] children with the same key, one on each side, are compared
    with each other at [path.object[<key>]], wherever they stand among their
    siblings: the records of that comparison are among the records
    returned. *)
Theorem handle_object_nodes_matched
    (rec : option Element → option Element → string → option (list DiffRecord))
    (old_list new_list : list Element) (path : string) (k : ObjectKey)
    (c c' : Element) (ds : list DiffRecord) :
  handle_object_nodes rec old_list new_list path = Some ds →
  last (filter (λ e, get_object_key e = Some k) old_list) = Some c →
  last (filter (λ e, get_object_key e = Some k) new_list) = Some c' →
  ∃ fk es, format_object_key k = Some fk
    ∧ rec (Some c) (Some c') (path +:+ ".object[" +:+ fk +:+ "]") = Some es
    ∧ ∀ d, d ∈ es → d ∈ ds.
Proof.
  intros Hds Hc Hc'.
  destruct (key_dict old_list) as [dict_old|] eqn:Hold;
    [|by unfold handle_object_nodes in Hds; rewrite Hold in Hds].
  destruct (key_dict new_list) as [dict_new|] eqn:Hnew;
    [|by unfold handle_object_nodes in Hds; rewrite Hold, Hnew in Hds].
  rewrite <- (key_dict_lookup _ _ _ Hold) in Hc.
  rewrite <- (key_dict_lookup _ _ _ Hnew) in Hc'.
  destruct (handle_object_nodes_key rec _ _ _ _ _ _ k Hds Hold Hnew)
    as (fk & es & Hfk & Hsub & Hcase); [left; by eexists|].
  rewrite Hc, Hc' in Hcase. by exists fk, es.
Qed.

Lemma handle_object_nodes_matched_witness :
  ∃ fk es, format_object_key [PyStr "XDDEVATTRIBUTEMAPPING"; PyStr "x"] = Some fk
    ∧ diff_elements (Some (attribute_mapping "x" [leaf "kind" "1"]))
                    (Some (attribute_mapping "x" [leaf "kind" "2"]))
                    ("database" +:+ ".object[" +:+ fk +:+ "]") = Some es
    ∧ ∀ d, d ∈ es →
        d ∈ [(TYPE_MISMATCH,
              mkInfo CATEGORY_MISMATCH "database.object[name: x].kind text"
                     (Some (PyStr "1")) (Some (PyStr "2")) None (Some "text"))].
Proof.
  apply (handle_object_nodes_matched diff_elements
           [attribute_mapping "y" []; attribute_mapping "x" [leaf "kind" "1"]]
           [attribute_mapping "x" [leaf "kind" "2"]; attribute_mapping "y" []]
           "database" [PyStr "XDDEVATTRIBUTEMAPPING"; PyStr "x"]);
    by vm_compute.
Defined.

(** ** The set-of-strings strategy, beyond a single rename *)

Lemma py_index_first_position k l i :
  py_index k l = Some i ↔ first_position k l i.
Proof.
  unfold py_index, first_position. split.
  - intros Hi. destruct (list_find _ l) as [[i' x]|] eqn:Hfind; [|done].
    injection Hi as ->. apply list_find_Some in Hfind as (Hx & -> & Hfirst).
    split; [done|]. intros j Hj Hk. by eapply Hfirst.
  - intros [Hi Hfirst].
    assert (list_find (λ x, x = k) l = Some (i, k)) as ->; [|done].
    apply list_find_Some. split_and!; [done..|].
    intros j y Hy Hj ->. by eapply Hfirst.
Qed.

(** X18: When the two sets of key texts differ otherwise than by one text
    replaced by another, the strategy reports every occurrence of an old
    text that no new key has as a missing node and every occurrence of a
    new text that no old key has as an extra node, and nothing else. The
    index in the path of a record is the first position of the text on its
    side, whichever occurrence is reported. *)
Theorem handle_plist_keys_records (old_list new_list : list Element)
    (path tag : string) :
  list_to_set (stripped_text <$> old_list) ≠@{gset string}
    list_to_set (stripped_text <$> new_list) →
  ¬ (length (removed (stripped_text <$> old_list) (stripped_text <$> new_list)) = 1
     ∧ length (removed (stripped_text <$> new_list) (stripped_text <$> old_list)) = 1) →
  ∃ ds, handle_plist_keys old_list new_list path tag = Some ds ∧
    ∀ d, d ∈ ds ↔
      (∃ k i, (k ∉ stripped_text <$> new_list)
              ∧ first_position k (stripped_text <$> old_list) i
              ∧ d = (TYPE_MISSING,
                     mkInfo CATEGORY_MISSING
                       ((path +:+ "." +:+ tag +:+ "[" +:+ pretty i +:+ "]") +:+ " text")
                       (Some (PyStr k)) None (Some k) None))
      ∨ (∃ k i, (k ∉ stripped_text <$> old_list)
                ∧ first_position k (stripped_text <$> new_list) i
                ∧ d = (TYPE_EXTRA,
                       mkInfo CATEGORY_EXTRA
                         ((path +:+ "." +:+ tag +:+ "[" +:+ pretty i +:+ "]") +:+ " text")
                         None (Some (PyStr k)) (Some k) None)).
Proof.
  intros Hset Hone. rewrite handle_plist_keys_unfold. cbn zeta.
  rewrite decide_False by done. rewrite decide_False by done.
  eexists. split; [done|]. intros d.
  set (old_keys := stripped_text <$> old_list).
  set (new_keys := stripped_text <$> new_list).
  assert (∀ keys others k i, first_position k keys i → (k ∉ others) →
            k ∈ removed keys others ∧ default 0 (py_index k keys) = i) as Hfirst.
  { intros keys others k i Hi Hk. split.
    - apply list_elem_of_filter. split; [done|].
      destruct Hi as [Hi _]. by eapply list_elem_of_lookup_2.
    - apply py_index_first_position in Hi. by rewrite Hi. }
  assert (∀ keys others k, k ∈ removed keys others →
            (k ∉ others) ∧ first_position k keys (default 0 (py_index k keys)))
    as Hremoved.
  { intros keys others k [Hk Hin]%list_elem_of_filter. split; [done|].
    destruct (py_index_elem_of k keys Hin) as [i Hi]. rewrite Hi. simpl.
    by apply py_index_first_position. }
  rewrite elem_of_app, !list_elem_of_fmap. split.
  - intros [(k & -> & Hk)|(k & -> & Hk)]; [left|right];
      destruct (Hremoved _ _ _ Hk) as [Hnot Hi]; by eexists k, _.
  - intros [(k & i & Hk & Hi & ->)|(k & i & Hk & Hi & ->)]; [left|right];
      destruct (Hfirst _ _ _ _ Hi Hk) as [Hin Hidx]; exists k; by rewrite Hidx.
Qed.

Lemma handle_plist_keys_records_witness :
  ∃ ds, handle_plist_keys [leaf "key" "A"; leaf "key" "B"; leaf "key" "B"]
          [leaf "key" "A"] "r.plist.dict" "key" = Some ds ∧
    ∀ d, d ∈ ds ↔
      (∃ k i, (k ∉ stripped_text <$> [leaf "key" "A"])
              ∧ first_position k
                  (stripped_text <$> [leaf "key" "A"; leaf "key" "B"; leaf "key" "B"]) i
              ∧ d = (TYPE_MISSING,
                     mkInfo CATEGORY_MISSING
                       (("r.plist.dict" +:+ "." +:+ "key" +:+ "[" +:+ pretty i +:+ "]")
                        +:+ " text")
                       (Some (PyStr k)) None (Some k) None))
      ∨ (∃ k i, (k ∉ stripped_text <$> [leaf "key" "A"; leaf "key" "B"; leaf "key" "B"])
                ∧ first_position k (stripped_text <$> [leaf "key" "A"]) i
                ∧ d = (TYPE_EXTRA,
                       mkInfo CATEGORY_EXTRA
                         (("r.plist.dict" +:+ "." +:+ "key" +:+ "[" +:+ pretty i +:+ "]")
                          +:+ " text")
                         None (Some (PyStr k)) (Some k) None)).
Proof.
  apply (handle_plist_keys_records [leaf "key" "A"; leaf "key" "B"; leaf "key" "B"]
           [leaf "key" "A"] "r.plist.dict" "key").
  - apply (bool_decide_unpack _). by vm_compute.
  - apply (bool_decide_unpack _). by vm_compute.
Defined.

(** ** The positional strategy *)

Lemma for_each_fmap {A B} (g : A → B) (f : B → option (list DiffRecord)) xs :
  for_each f (g <$> xs) = for_each (λ x, f (g x)) xs.
Proof.
  induction xs as [|x xs IH]; [done|]. rewrite fmap_cons. cbn [for_each].
  by rewrite IH.
Qed.

Section positional.
Variable rec : option Element → option Element → string → option (list DiffRecord).

Lemma handle_default_children_prefix l old_rest new_rest path tag :
  (∀ c p, c ∈ l → rec (Some c) (Some c) p = Some []) →
  handle_default_children rec (l ++ old_rest) (l ++ new_rest) path tag =
  for_each
    (λ j, rec (old_rest !! j) (new_rest !! j)
              (child_path path tag
                 (length l + length old_rest `max` length new_rest) (length l + j)))
    (seq 0 (length old_rest `max` length new_rest)).
Proof.
  intros Hrec. unfold handle_default_children. cbn zeta.
  rewrite !length_app.
  replace ((length l + length old_rest) `max` (length l + length new_rest))
    with (length l + length old_rest `max` length new_rest) by lia.
  set (n := length l). set (m := length old_rest `max` length new_rest).
  rewrite seq_app, for_each_app.
  rewrite (for_each_nil_all _ (seq 0 n)); last first.
  { intros i Hi. apply elem_of_seq in Hi.
    destruct (lookup_lt_is_Some_2 l i) as [c Hc]; [unfold n in Hi; lia|].
    rewrite !(lookup_app_l_Some _ _ _ _ Hc).
    apply Hrec. by eapply list_elem_of_lookup_2. }
  simpl.
  replace (seq n m) with ((λ j, n + j) <$> seq 0 m)
    by (rewrite fmap_add_seq; f_equal; lia).
  rewrite for_each_fmap.
  destruct (for_each _ (seq 0 m)) as [ds|] eqn:Hds; simpl.
  - rewrite <- Hds. apply for_each_ext. intros j _. unfold child_path.
    rewrite !lookup_app_r by (unfold n; lia).
    by replace (n + j - length l) with j by (unfold n; lia).
  - rewrite <- Hds. apply for_each_ext. intros j _. unfold child_path.
    rewrite !lookup_app_r by (unfold n; lia).
    by replace (n + j - length l) with j by (unfold n; lia).
Qed.
End positional.

(** X20: Children of a tag other than [object] are paired by position. When
    children are appended to a group on the new side, the common children
    give no record and each appended child is compared as a node that is
    absent on the old side, at its own index: it gives one extra node. When
    trailing children are removed, each gives one missing node. (The keys of
    the objects below the common children are required to be derivable, so
    that comparing a common child with itself does not raise.) *)
Theorem handle_default_children_appended (l rest : list Element)
    (path tag : string) :
  Forall keys_defined l →
  handle_default_children diff_elements l (l ++ rest) path tag =
    for_each
      (λ j, diff_elements None (rest !! j)
              (child_path path tag (length l + length rest) (length l + j)))
      (seq 0 (length rest))
  ∧ handle_default_children diff_elements (l ++ rest) l path tag =
    for_each
      (λ j, diff_elements (rest !! j) None
              (child_path path tag (length l + length rest) (length l + j)))
      (seq 0 (length rest)).
Proof.
  intros Hl.
  assert (∀ c p, c ∈ l → diff_elements (Some c) (Some c) p = Some []) as Hself.
  { intros c p Hc. apply diff_elements_self. rewrite Forall_forall in Hl. by apply Hl. }
  split.
  - pose proof (handle_default_children_prefix diff_elements l [] rest path tag Hself)
      as Heq.
    rewrite app_nil_r in Heq. rewrite Heq. simpl. done.
  - pose proof (handle_default_children_prefix diff_elements l rest [] path tag Hself)
      as Heq.
    rewrite app_nil_r in Heq. rewrite Heq. simpl. rewrite Nat.max_0_r.
    apply for_each_ext. intros j _. by rewrite lookup_nil.
Qed.

Lemma handle_default_children_appended_witness :
  handle_default_children diff_elements [leaf "string" "a"]
      ([leaf "string" "a"] ++ [leaf "string" "b"]) "dict" "string" =
    for_each
      (λ j, diff_elements None ([leaf "string" "b"] !! j)
              (child_path "dict" "string"
                 (length [leaf "string" "a"] + length [leaf "string" "b"])
                 (length [leaf "string" "a"] + j)))
      (seq 0 (length [leaf "string" "b"]))
  ∧ handle_default_children diff_elements
      ([leaf "string" "a"] ++ [leaf "string" "b"]) [leaf "string" "a"]
      "dict" "string" =
    for_each
      (λ j, diff_elements ([leaf "string" "b"] !! j) None
              (child_path "dict" "string"
                 (length [leaf "string" "a"] + length [leaf "string" "b"])
                 (length [leaf "string" "a"] + j)))
      (seq 0 (length [leaf "string" "b"])).
Proof.
  apply (handle_default_children_appended [leaf "string" "a"] [leaf "string" "b"]
           "dict" "string").
  by repeat constructor.
Defined.

(** ** White space around texts *)

Lemma str_app_nil_r s : s +:+ "" = s.
Proof. induction s as [|c s IH]; [done|]. by rewrite str_app_cons, IH. Qed.

Lemma str_rev_app_acc s acc : String.rev_app s acc = String.rev s +:+ acc.
Proof.
  unfold String.rev. revert acc. induction s as [|c s IH]; intros acc; [done|].
  simpl. rewrite (IH (String c acc)), (IH (String c "")).
  by rewrite str_app_assoc, str_app_cons, str_app_nil.
Qed.

Lemma str_rev_app a b : String.rev (a +:+ b) = String.rev b +:+ String.rev a.
Proof.
  unfold String.rev at 1. rewrite str_rev_app_app.
  by rewrite (str_rev_app_acc b), (str_rev_app_acc a), str_app_nil_r.
Qed.

Lemma str_rev_cons c s : String.rev (String c s) = String.rev s +:+ String c "".
Proof. unfold String.rev at 1. simpl. apply str_rev_app_acc. Qed.

Lemma str_rev_involutive s : String.rev (String.rev s) = s.
Proof.
  induction s as [|c s IH]; [done|].
  rewrite str_rev_cons, str_rev_app, IH. done.
Qed.

Lemma str_rev_nil_inv s : String.rev s = "" → s = "".
Proof. intros Hs. by rewrite <- (str_rev_involutive s), Hs. Qed.

Lemma all_space_app a b : all_space (a +:+ b) = all_space a && all_space b.
Proof.
  induction a as [|c a IH]; [done|]. rewrite str_app_cons. simpl.
  by rewrite IH, andb_assoc.
Qed.

Lemma all_space_rev w : all_space (String.rev w) = all_space w.
Proof.
  induction w as [|c w IH]; [done|].
  rewrite str_rev_cons, all_space_app, IH. simpl.
  by rewrite andb_true_r, andb_comm.
Qed.

Lemma lstrip_all_space w : all_space w → lstrip w = "".
Proof.
  induction w as [|c w IH]; [done|]. simpl.
  intros [Hc Hw]%andb_True. rewrite (Is_true_eq_true _ Hc). by apply IH.
Qed.

Lemma lstrip_app a b :
  lstrip (a +:+ b) = if decide (lstrip a = "") then lstrip b else lstrip a +:+ b.
Proof.
  induction a as [|c a IH]; [done|]. rewrite str_app_cons. simpl.
  destruct (is_py_space c); [done|]. by rewrite decide_False, str_app_cons.
Qed.

Lemma lstrip_length s : String.length (lstrip s) ≤ String.length s.
Proof.
  induction s as [|c s IH]; [done|]. simpl.
  destruct (is_py_space c); simpl; lia.
Qed.

Lemma lstrip_idemp s : lstrip (lstrip s) = lstrip s.
Proof.
  induction s as [|c s IH]; [done|]. simpl.
  destruct (is_py_space c) eqn:Hc; [done|]. simpl. by rewrite Hc.
Qed.

Lemma lstrip_fixed_cons c s : lstrip (String c s) = String c s → is_py_space c = false.
Proof.
  simpl. destruct (is_py_space c); [|done]. intros Hs.
  pose proof (lstrip_length s) as Hlen. rewrite Hs in Hlen. simpl in Hlen. lia.
Qed.

Lemma rstrip_nil_iff s : rstrip s = "" ↔ lstrip (String.rev s) = "".
Proof.
  unfold rstrip. split; [apply str_rev_nil_inv|]. by intros ->.
Qed.

Lemma rstrip_cons c s :
  rstrip (String c s) =
  if decide (rstrip s = "") then (if is_py_space c then "" else String c "")
  else String c (rstrip s).
Proof.
  unfold rstrip at 1. rewrite str_rev_cons, lstrip_app.
  destruct (decide (lstrip (String.rev s) = "")) as [Hnil|Hnil].
  - rewrite decide_True by (by apply (proj2 (rstrip_nil_iff s))). simpl.
    by destruct (is_py_space c).
  - rewrite decide_False by (by intros ?%(proj1 (rstrip_nil_iff s))).
    by rewrite str_rev_app.
Qed.

Lemma rstrip_app_space y w : all_space w → rstrip (y +:+ w) = rstrip y.
Proof.
  intros Hw. unfold rstrip. rewrite str_rev_app, lstrip_app.
  rewrite decide_True; [done|]. apply lstrip_all_space. by rewrite all_space_rev.
Qed.

Lemma rstrip_idemp s : rstrip (rstrip s) = rstrip s.
Proof. unfold rstrip. by rewrite str_rev_involutive, lstrip_idemp. Qed.

Lemma lstrip_rstrip_fixed s : lstrip s = s → lstrip (rstrip s) = rstrip s.
Proof.
  destruct s as [|c s]; [done|]. intros Hc%lstrip_fixed_cons.
  rewrite rstrip_cons. case_decide; rewrite ?Hc; simpl; by rewrite Hc.
Qed.

Lemma strip_idemp s : strip (strip s) = strip s.
Proof.
  unfold strip. rewrite (lstrip_rstrip_fixed (lstrip s)) by apply lstrip_idemp.
  apply rstrip_idemp.
Qed.

Lemma strip_padding w1 x w2 :
  all_space w1 → all_space w2 → strip (w1 +:+ x +:+ w2) = strip x.
Proof.
  intros Hw1 Hw2. unfold strip.
  rewrite (lstrip_app w1), decide_True by (by apply lstrip_all_space).
  rewrite lstrip_app. case_decide as Hx.
  - by rewrite Hx, lstrip_all_space.
  - by apply rstrip_app_space.
Qed.

(** ** Trimmed trees *)

Lemma strip_texts_tag e : tag (strip_texts e) = tag e.
Proof. by destruct e. Qed.

Lemma strip_texts_attrib e : attrib (strip_texts e) = attrib e.
Proof. by destruct e. Qed.

Lemma strip_texts_get e name : get (strip_texts e) name = get e name.
Proof. by destruct e. Qed.

Lemma strip_texts_text e : text (strip_texts e) = strip <$> text e.
Proof. by destruct e. Qed.

Lemma strip_texts_children e : children (strip_texts e) = strip_texts <$> children e.
Proof. by destruct e. Qed.

Lemma strip_texts_stripped_text e : stripped_text (strip_texts e) = stripped_text e.
Proof.
  unfold stripped_text. rewrite strip_texts_text.
  destruct (text e); simpl; [apply strip_idemp|done].
Qed.

Lemma filter_strip_texts (P : Element → Prop) `{∀ e, Decision (P e)}
    (l : list Element) :
  (∀ e, P (strip_texts e) ↔ P e) →
  filter P (strip_texts <$> l) = strip_texts <$> filter P l.
Proof.
  intros HP. induction l as [|c l IH]; [done|].
  rewrite fmap_cons, !filter_cons.
  destruct (decide (P (strip_texts c))) as [Hc|Hc];
    destruct (decide (P c)) as [Hc'|Hc']; rewrite ?fmap_cons, IH; try done.
  - exfalso. apply Hc'. by apply HP.
  - exfalso. apply Hc. by apply HP.
Qed.

Lemma find_attribute_strip_texts e name :
  find_attribute (strip_texts e) name = strip_texts <$> find_attribute e name.
Proof.
  unfold find_attribute. rewrite strip_texts_children, filter_strip_texts.
  - by destruct (filter _ (children e)).
  - intros c. by rewrite strip_texts_tag, strip_texts_get.
Qed.

Lemma text_or_empty_strip_texts sub :
  text_or_empty (strip_texts <$> sub) = text_or_empty sub.
Proof.
  destruct sub as [e|]; [|done]. simpl. rewrite strip_texts_text.
  destruct (text e); simpl; [|done]. by rewrite strip_idemp.
Qed.

Lemma get_object_key_strip_texts e : get_object_key (strip_texts e) = get_object_key e.
Proof.
  unfold get_object_key, create_event_entity_mapping_key,
    create_attribute_or_relationship_mapping_key, create_mapping_model_key.
  cbn zeta.
  by rewrite !strip_texts_get, !find_attribute_strip_texts,
    !text_or_empty_strip_texts, strip_texts_tag.
Qed.

Lemma format_element_strip_texts e : format_element (strip_texts e) = format_element e.
Proof.
  unfold format_element, format_event_entity_mapping. cbn zeta.
  by rewrite get_object_key_strip_texts, strip_texts_get, strip_texts_tag,
    strip_texts_stripped_text, !find_attribute_strip_texts,
    !text_or_empty_strip_texts.
Qed.

Lemma get_element_value_strip_texts e :
  get_element_value (strip_texts e) = get_element_value e.
Proof.
  unfold get_element_value.
  by rewrite strip_texts_children, length_fmap, strip_texts_stripped_text.
Qed.

Lemma check_missing_nodes_strip_texts o n path :
  check_missing_nodes (strip_texts <$> o) (strip_texts <$> n) path =
  check_missing_nodes o n path.
Proof.
  destruct o as [o|]; destruct n as [n|]; simpl; try done;
    by rewrite format_element_strip_texts, get_element_value_strip_texts.
Qed.

Lemma compare_tags_strip_texts o n path :
  compare_tags (strip_texts o) (strip_texts n) path = compare_tags o n path.
Proof. unfold compare_tags. by rewrite !strip_texts_tag. Qed.

Lemma compare_text_strip_texts o n path :
  compare_text (strip_texts o) (strip_texts n) path = compare_text o n path.
Proof.
  unfold compare_text.
  by rewrite strip_texts_tag, strip_texts_get, !strip_texts_stripped_text.
Qed.

Lemma compare_attributes_strip_texts o n path :
  compare_attributes (strip_texts o) (strip_texts n) path = compare_attributes o n path.
Proof. unfold compare_attributes, get. by rewrite !strip_texts_attrib. Qed.

Lemma handle_plist_keys_strip_texts l l' path tag :
  handle_plist_keys (strip_texts <$> l) (strip_texts <$> l') path tag =
  handle_plist_keys l l' path tag.
Proof.
  assert (∀ cs : list Element,
            stripped_text <$> (strip_texts <$> cs) = stripped_text <$> cs) as Hkeys.
  { intros cs. rewrite <- list_fmap_compose. apply list_fmap_ext.
    intros i c _. apply strip_texts_stripped_text. }
  unfold handle_plist_keys. by rewrite !Hkeys.
Qed.

Lemma filter_children_strip_texts l :
  filter_children (strip_texts <$> l) = strip_texts <$> filter_children l.
Proof.
  unfold filter_children. cbn zeta. apply filter_strip_texts.
  intros c. by rewrite strip_texts_tag, strip_texts_get.
Qed.

Lemma filter_tag_strip_texts u (l : list Element) :
  filter (λ e, tag e = u) (strip_texts <$> l) =
  strip_texts <$> filter (λ e, tag e = u) l.
Proof. apply filter_strip_texts. intros c. by rewrite strip_texts_tag. Qed.

Lemma dom_group_by_tag_strip_texts (l : list Element) :
  dom (group_by_tag (strip_texts <$> l)) = dom (group_by_tag l).
Proof.
  apply set_eq. intros u.
  rewrite !elem_of_dom_group_by_tag_filter, filter_tag_strip_texts.
  by destruct (filter _ l).
Qed.

Lemma key_dict_strip_texts (l : list Element) :
  key_dict (strip_texts <$> l) = fmap (M := gmap ObjectKey) strip_texts <$> key_dict l.
Proof.
  induction l as [|c l IH] using rev_ind;
    [unfold key_dict; simpl; by rewrite fmap_empty|].
  rewrite fmap_app, fmap_cons, fmap_nil, !key_dict_snoc, IH.
  destruct (key_dict l) as [d|]; simpl; [|done].
  rewrite get_object_key_strip_texts.
  destruct (get_object_key c) as [k|]; simpl; [|done].
  by rewrite fmap_insert.
Qed.

Section trimmed.
Variable rec : option Element → option Element → string → option (list DiffRecord).

Lemma handle_object_nodes_strip_texts l l' path :
  (∀ c n p, c ∈ l →
     rec (Some (strip_texts c)) (strip_texts <$> n) p = rec (Some c) n p) →
  handle_object_nodes rec (strip_texts <$> l) (strip_texts <$> l') path =
  handle_object_nodes rec l l' path.
Proof.
  intros Hrec. unfold handle_object_nodes. rewrite !key_dict_strip_texts.
  destruct (key_dict l) as [d|] eqn:Hd; simpl; [|done].
  destruct (key_dict l') as [d'|] eqn:Hd'; simpl; [|done].
  rewrite !dom_fmap_L. apply for_each_ext. intros key _.
  destruct (format_object_key key) as [fk|]; simpl; [|done].
  rewrite !lookup_fmap.
  destruct (d !! key) as [c|] eqn:Hc; destruct (d' !! key) as [c'|] eqn:Hc';
    simpl; rewrite ?format_element_strip_texts; try done.
  destruct (key_dict_lookup_elem _ _ _ _ Hd Hc) as [Hin _].
  apply (Hrec c (Some c') _ Hin).
Qed.

Lemma handle_default_children_strip_texts l l' path tag :
  (∀ c n p, c ∈ l →
     rec (Some (strip_texts c)) (strip_texts <$> n) p = rec (Some c) n p) →
  (∀ n p, rec None (strip_texts <$> n) p = rec None n p) →
  handle_default_children rec (strip_texts <$> l) (strip_texts <$> l') path tag =
  handle_default_children rec l l' path tag.
Proof.
  intros Hrec Hnone. unfold handle_default_children. rewrite !length_fmap.
  apply for_each_ext. intros i _. cbn zeta. rewrite !list_lookup_fmap.
  destruct (l !! i) as [c|] eqn:Hc; simpl.
  - apply list_elem_of_lookup_2 in Hc. case_decide; by apply Hrec.
  - case_decide; apply Hnone.
Qed.

Lemma diff_children_strip_texts cs cs' path :
  (∀ c n p, c ∈ cs →
     rec (Some (strip_texts c)) (strip_texts <$> n) p = rec (Some c) n p) →
  (∀ n p, rec None (strip_texts <$> n) p = rec None n p) →
  diff_children rec (strip_texts <$> cs) (strip_texts <$> cs') path =
  diff_children rec cs cs' path.
Proof.
  intros Hrec Hnone. unfold diff_children.
  rewrite !filter_children_strip_texts, !dom_group_by_tag_strip_texts.
  apply for_each_ext. intros u _.
  rewrite !group_by_tag_default, !filter_tag_strip_texts.
  assert (∀ c, c ∈ filter (λ e, tag e = u) (filter_children cs) → c ∈ cs) as Hin.
  { intros c [_ Hc]%list_elem_of_filter. by apply filter_children_elem. }
  repeat case_decide.
  - apply handle_plist_keys_strip_texts.
  - apply handle_object_nodes_strip_texts. intros c n p Hc. apply Hrec. by apply Hin.
  - apply handle_default_children_strip_texts; [|done].
    intros c n p Hc. apply Hrec. by apply Hin.
Qed.
End trimmed.

Lemma diff_elements_strip_texts_absent n path :
  diff_elements None (strip_texts <$> n) path = diff_elements None n path.
Proof.
  rewrite !diff_elements_unfold. unfold diff_elements_body.
  rewrite <- (check_missing_nodes_strip_texts None n path). simpl.
  destruct (check_missing_nodes None (strip_texts <$> n) path) as [[ms []]|];
    simpl; [|done..].
  by destruct n.
Qed.

Lemma diff_elements_strip_texts_present A n path :
  diff_elements (Some (strip_texts A)) (strip_texts <$> n) path =
  diff_elements (Some A) n path.
Proof.
  revert n path. induction A as [t a x cs IH] using Element_ind. intros n path.
  remember (mkElement t a x cs) as A eqn:HA.
  assert (children A = cs) as Hcs by (by subst A). clear HA.
  rewrite !diff_elements_unfold. unfold diff_elements_body.
  pose proof (check_missing_nodes_strip_texts (Some A) n path) as Hcheck.
  change (strip_texts <$> Some A) with (Some (strip_texts A)) in Hcheck.
  rewrite Hcheck.
  destruct (check_missing_nodes (Some A) n path) as [[ms []]|]; simpl; [|done..].
  destruct n as [B|]; [|done].
  change (strip_texts <$> Some B) with (Some (strip_texts B)). cbv iota beta.
  rewrite compare_tags_strip_texts, compare_text_strip_texts,
    compare_attributes_strip_texts, !strip_texts_children.
  rewrite diff_children_strip_texts; [done| |].
  - intros c n p Hc. rewrite Hcs in Hc. rewrite Forall_forall in IH. by apply IH.
  - apply diff_elements_strip_texts_absent.
Qed.

(** X11: The comparator does not look at the white space around a text: the
    comparison of two trees gives the same result (the same records, or an
    exception in both cases) as the comparison of the two trees with every
    text trimmed. *)
Theorem diff_elements_strip_texts (old_elem new_elem : option Element)
    (path : string) :
  same_records
    (diff_elements (strip_texts <$> old_elem) (strip_texts <$> new_elem) path)
    (diff_elements old_elem new_elem path).
Proof.
  apply same_records_eq. destruct old_elem as [A|].
  - apply diff_elements_strip_texts_present.
  - apply diff_elements_strip_texts_absent.
Qed.

(** X12: White space added around the text of a compared node, or given to a
    node that has no text, is not a difference: for two present nodes the
    result is the same with and without it, on the old and on the new
    side. *)
Theorem diff_elements_text_padding (t : string) (a : gmap string string)
    (x : option string) (cs : list Element) (other : Element)
    (w1 w2 path : string) :
  all_space w1 → all_space w2 →
  same_records
    (diff_elements (Some other)
       (Some (mkElement t a (Some (w1 +:+ default "" x +:+ w2)) cs)) path)
    (diff_elements (Some other) (Some (mkElement t a x cs)) path)
  ∧ same_records
      (diff_elements (Some (mkElement t a (Some (w1 +:+ default "" x +:+ w2)) cs))
         (Some other) path)
      (diff_elements (Some (mkElement t a x cs)) (Some other) path).
Proof.
  intros Hw1 Hw2. split; apply same_records_eq;
    rewrite !diff_elements_unfold; unfold diff_elements_body; simpl;
    unfold compare_tags, compare_text, compare_attributes, stripped_text, get; simpl;
    by rewrite (strip_padding w1 (default "" x) w2 Hw1 Hw2).
Qed.

Lemma diff_elements_text_padding_witness :
  same_records
    (diff_elements (Some (database [leaf "note" "n"]))
       (Some (mkElement "database" ∅ (Some (LF +:+ default "" None +:+ "  "))
                [leaf "note" "m"])) "database")
    (diff_elements (Some (database [leaf "note" "n"]))
       (Some (mkElement "database" ∅ None [leaf "note" "m"])) "database")
  ∧ same_records
      (diff_elements
         (Some (mkElement "database" ∅ (Some (LF +:+ default "" None +:+ "  "))
                  [leaf "note" "m"]))
         (Some (database [leaf "note" "n"])) "database")
      (diff_elements (Some (mkElement "database" ∅ None [leaf "note" "m"]))
         (Some (database [leaf "note" "n"])) "database").
Proof.
  apply (diff_elements_text_padding "database" ∅ None [leaf "note" "m"]
           (database [leaf "note" "n"]) LF "  " "database");
    by vm_compute.
Defined.

(** ** The report *)

Lemma group_by_type_snoc diffs d :
  group_by_type (diffs ++ [d]) =
  <[d.1 := default [] (group_by_type diffs !! d.1) ++ [d.2]]> (group_by_type diffs).
Proof. unfold group_by_type. by rewrite foldl_snoc. Qed.

Lemma group_by_type_lookup diffs t :
  group_by_type diffs !! t =
  if decide (messages_of t diffs = []) then None else Some (messages_of t diffs).
Proof.
  unfold messages_of.
  induction diffs as [|d diffs IH] using rev_ind; [done|].
  rewrite group_by_type_snoc, filter_app, fmap_app.
  destruct (decide (d.1 = t)) as [Heq|Hne].
  - rewrite Heq, lookup_insert_eq, IH.
    rewrite filter_cons_True, filter_nil by done. simpl.
    rewrite (decide_False (P := _ ++ [d.2] = [])) by (by intros [_ ?]%app_eq_nil).
    by case_decide as Hg; [rewrite Hg|].
  - rewrite lookup_insert_ne, IH by done.
    rewrite filter_cons_False, filter_nil by done. simpl.
    by rewrite (right_id_L [] (++)).
Qed.

Lemma group_by_type_default diffs t :
  default [] (group_by_type diffs !! t) = messages_of t diffs.
Proof. rewrite group_by_type_lookup. by case_decide as Hg; [rewrite Hg|]. Qed.

Lemma elem_of_dom_group_by_type diffs t :
  t ∈ dom (group_by_type diffs) ↔ messages_of t diffs ≠ [].
Proof.
  rewrite elem_of_dom, group_by_type_lookup.
  case_decide as Hg; split; try done; by intros [].
Qed.

Lemma messages_of_nil_iff diffs t :
  messages_of t diffs = [] ↔ Forall (λ d : DiffRecord, d.1 ≠ t) diffs.
Proof.
  unfold messages_of. split.
  - intros Hnil. apply fmap_nil_inv in Hnil. apply Forall_forall. intros d Hd Ht.
    assert (d ∈ filter (λ d : DiffRecord, d.1 = t) diffs) as Hin
      by (by apply list_elem_of_filter).
    rewrite Hnil in Hin. by apply elem_of_nil in Hin.
  - intros Hall. induction Hall as [|d diffs Hd Hall IH]; [done|].
    by rewrite filter_cons_False.
Qed.

(** The three types that the comparator emits, as a set. *)
Lemma sorted_types (be bm bs : bool) :
  py_sorted id
    (elements ((if be then {[TYPE_EXTRA]} else ∅)
               ∪ (if bm then {[TYPE_MISMATCH]} else ∅)
               ∪ (if bs then {[TYPE_MISSING]} else ∅) : gset string)) =
  (if be then [TYPE_EXTRA] else []) ++ (if bm then [TYPE_MISMATCH] else [])
  ++ (if bs then [TYPE_MISSING] else []).
Proof. destruct be, bm, bs; by vm_compute. Qed.

Lemma dom_group_by_type diffs :
  Forall (λ d : DiffRecord, d.1 ∈ [TYPE_EXTRA; TYPE_MISMATCH; TYPE_MISSING]) diffs →
  dom (group_by_type diffs) =
    (if bool_decide (messages_of TYPE_EXTRA diffs ≠ []) then {[TYPE_EXTRA]} else ∅)
    ∪ (if bool_decide (messages_of TYPE_MISMATCH diffs ≠ []) then {[TYPE_MISMATCH]} else ∅)
    ∪ (if bool_decide (messages_of TYPE_MISSING diffs ≠ []) then {[TYPE_MISSING]} else ∅).
Proof.
  intros Htypes. apply set_eq. intros t.
  rewrite elem_of_dom_group_by_type, !elem_of_union.
  assert (∀ u, t ∈ (if bool_decide (messages_of u diffs ≠ []) then {[u]} else ∅
                    : gset string) ↔ t = u ∧ messages_of u diffs ≠ []) as Hin.
  { intros u. case_bool_decide as Hu.
    - rewrite elem_of_singleton. by split; [|intros []].
    - rewrite elem_of_empty. by split; [|intros []]. }
  rewrite !Hin. split.
  - intros Ht.
    assert (t ∈ [TYPE_EXTRA; TYPE_MISMATCH; TYPE_MISSING]) as Hthree.
    { destruct (decide (t ∈ [TYPE_EXTRA; TYPE_MISMATCH; TYPE_MISSING])) as [|Hnot];
        [done|].
      exfalso. apply Ht, messages_of_nil_iff.
      eapply Forall_impl; [exact Htypes|]. intros d Hd Heq.
      apply Hnot. by rewrite <- Heq. }
    rewrite !elem_of_cons in Hthree.
    destruct Hthree as [->|[->|[->|Hnil]]]; [by left; left|by left; right|by right|].
    by apply elem_of_nil in Hnil.
  - by intros [[[-> ?]|[-> ?]]|[-> ?]].
Qed.

Section report.
Variable py_str_info : diff_info → string.
Variable py_upper : string → string.

Lemma print_differences_three_types diffs :
  diffs ≠ [] →
  Forall (λ d : DiffRecord, d.1 ∈ [TYPE_EXTRA; TYPE_MISMATCH; TYPE_MISSING]) diffs →
  print_differences py_str_info py_upper diffs =
    extra ← report_section print_extra_nodes (messages_of TYPE_EXTRA diffs);
    mismatch ← report_section print_mismatches (messages_of TYPE_MISMATCH diffs);
    missing ← report_section print_missing_nodes (messages_of TYPE_MISSING diffs);
    Some ((LF +:+ "Differences found (grouped by error type):")
          :: extra ++ mismatch ++ missing).
Proof.
  intros Hne Htypes. unfold print_differences. rewrite decide_False by done.
  cbn zeta. rewrite (dom_group_by_type diffs Htypes), sorted_types.
  unfold report_section.
  set (dispatch := λ err_type : string, _).
  assert (dispatch TYPE_EXTRA = print_extra_nodes (messages_of TYPE_EXTRA diffs))
    as Hextra.
  { unfold dispatch. rewrite group_by_type_default.
    by repeat (case_decide; [done|]). }
  assert (dispatch TYPE_MISMATCH = print_mismatches (messages_of TYPE_MISMATCH diffs))
    as Hmismatch.
  { unfold dispatch. rewrite group_by_type_default. by case_decide. }
  assert (dispatch TYPE_MISSING = print_missing_nodes (messages_of TYPE_MISSING diffs))
    as Hmissing.
  { unfold dispatch. rewrite group_by_type_default.
    case_decide; [done|]. by case_decide. }
  clearbody dispatch.
  repeat case_bool_decide; repeat case_decide; try done; simpl;
    rewrite ?Hextra, ?Hmismatch, ?Hmissing;
    repeat (match goal with
            | |- context [print_extra_nodes ?m] =>
                destruct (print_extra_nodes m); simpl; [|done]
            | |- context [print_mismatches ?m] =>
                destruct (print_mismatches m); simpl; [|done]
            | |- context [print_missing_nodes ?m] =>
                destruct (print_missing_nodes m); simpl; [|done]
            end);
    by rewrite ?app_nil_r.
Qed.

Lemma print_differences_well_formed diffs :
  Forall well_formed diffs → is_Some (print_differences py_str_info py_upper diffs).
Proof.
  intros Hwf. destruct (decide (diffs = [])) as [->|Hne]; [by eexists|].
  rewrite print_differences_three_types; [|done|]; last first.
  { eapply Forall_impl; [exact Hwf|].
    intros d [(-> & _)|[(-> & _)|(-> & _)]]; rewrite !elem_of_cons; auto. }
  assert (∀ messages : list diff_info, messages ≠ [] →
            is_Some (messages !! 0)) as Hfirst.
  { intros [|m ms] Hms; [done|]. by eexists. }
  assert (is_Some (report_section print_extra_nodes (messages_of TYPE_EXTRA diffs)))
    as [extra ->].
  { unfold report_section. case_decide as Hnil; [by eexists|].
    unfold print_extra_nodes.
    destruct (Hfirst _ Hnil) as [m ->]. by eexists. }
  assert (is_Some (report_section print_mismatches
                     (messages_of TYPE_MISMATCH diffs))) as [mismatch ->].
  { unfold report_section. case_decide as Hnil; [by eexists|].
    unfold print_mismatches.
    match goal with
    | |- is_Some (?r ≫= _) => assert (is_Some r) as [body ->]; [|by eexists]
    end.
    apply mapM_is_Some, Forall_forall. intros msg Hmsg.
    unfold messages_of in Hmsg. apply list_elem_of_fmap in Hmsg as (d & -> & Hd).
    apply list_elem_of_filter in Hd as [Htype Hd].
    rewrite Forall_forall in Hwf. simpl.
    destruct (Hwf d Hd) as [(_ & _ & [old Hold] & [new Hnew] & _)
                            |[(Hd1 & _)|(Hd1 & _)]].
    - rewrite Hold, Hnew. by eexists.
    - rewrite Htype in Hd1. done.
    - rewrite Htype in Hd1. done. }
  assert (is_Some (report_section print_missing_nodes
                     (messages_of TYPE_MISSING diffs))) as [missing ->].
  { unfold report_section. case_decide as Hnil; [by eexists|].
    unfold print_missing_nodes.
    destruct (Hfirst _ Hnil) as [m ->]. by eexists. }
  by eexists.
Qed.
End report.

(** X22: The report has one section for each type of record that occurs, in the
    order extra nodes, mismatches, missing nodes, whatever the order in
    which the records were found; a section lists the records of its type
    and no other. *)
Theorem print_differences_sections (py_str_info : diff_info → string)
    (py_upper : string → string) (diffs : list DiffRecord) :
  diffs ≠ [] →
  Forall (λ d : DiffRecord, d.1 ∈ [TYPE_EXTRA; TYPE_MISMATCH; TYPE_MISSING]) diffs →
  print_differences py_str_info py_upper diffs =
    extra ← report_section print_extra_nodes (messages_of TYPE_EXTRA diffs);
    mismatch ← report_section print_mismatches (messages_of TYPE_MISMATCH diffs);
    missing ← report_section print_missing_nodes (messages_of TYPE_MISSING diffs);
    Some ((LF +:+ "Differences found (grouped by error type):")
          :: extra ++ mismatch ++ missing).
Proof. apply print_differences_three_types. Qed.

Lemma print_differences_sections_witness :
  print_differences (λ _, "") id
    [(TYPE_MISSING,
      mkInfo CATEGORY_MISSING "database.note" (Some (PyStr "note: 'n'")) None
             (Some "n") None);
     (TYPE_EXTRA,
      mkInfo CATEGORY_EXTRA "database.object[name: x]" None (Some (PyStr "[name: x]"))
             None None)] =
    extra ← report_section print_extra_nodes
      (messages_of TYPE_EXTRA
         [(TYPE_MISSING,
           mkInfo CATEGORY_MISSING "database.note" (Some (PyStr "note: 'n'")) None
                  (Some "n") None);
          (TYPE_EXTRA,
           mkInfo CATEGORY_EXTRA "database.object[name: x]" None
                  (Some (PyStr "[name: x]")) None None)]);
    mismatch ← report_section print_mismatches
      (messages_of TYPE_MISMATCH
         [(TYPE_MISSING,
           mkInfo CATEGORY_MISSING "database.note" (Some (PyStr "note: 'n'")) None
                  (Some "n") None);
          (TYPE_EXTRA,
           mkInfo CATEGORY_EXTRA "database.object[name: x]" None
                  (Some (PyStr "[name: x]")) None None)]);
    missing ← report_section print_missing_nodes
      (messages_of TYPE_MISSING
         [(TYPE_MISSING,
           mkInfo CATEGORY_MISSING "database.note" (Some (PyStr "note: 'n'")) None
                  (Some "n") None);
          (TYPE_EXTRA,
           mkInfo CATEGORY_EXTRA "database.object[name: x]" None
                  (Some (PyStr "[name: x]")) None None)]);
    Some ((LF +:+ "Differences found (grouped by error type):")
          :: extra ++ mismatch ++ missing).
Proof.
  apply (print_differences_sections (λ _, "") id).
  - done.
  - apply (bool_decide_unpack _). by vm_compute.
Defined.

(** X23: The reporter never raises on the records of a comparison: a mismatch
    has the keys [old] and [new] that [print_mismatches] reads, and a
    section is printed for a type only when there is a record of it. *)
Theorem print_differences_never_raises (py_str_info : diff_info → string)
    (py_upper : string → string) (old_elem new_elem : option Element)
    (path : string) (diffs : list DiffRecord) :
  diff_elements old_elem new_elem path = Some diffs →
  is_Some (print_differences py_str_info py_upper diffs).
Proof.
  intros Hdiffs. apply print_differences_well_formed.
  eapply Forall_impl; [by eapply diff_elements_shape|]. by intros d [_ ?].
Qed.

Lemma print_differences_never_raises_witness :
  is_Some
    (print_differences (λ _, "") id
       [(TYPE_MISMATCH,
         mkInfo CATEGORY_MISMATCH "database.plist.dict.key[1] text"
           (Some (PyStr "M")) (Some (PyStr "N")) None (Some "text"))]).
Proof.
  apply (print_differences_never_raises (λ _, "") id
           (Some (plist_dict [leaf "key" "K"; leaf "key" "M"]))
           (Some (plist_dict [leaf "key" "N"; leaf "key" "K"])) "database").
  by vm_compute.
Defined.

(** X25: On two documents in which the key of every [object] can be derived,
    [main] runs to the end: neither the comparison nor the report raises. *)
Theorem main_never_raises (py_str_info : diff_info → string)
    (py_upper : string → string) (root_old root_new : Element) :
  keys_defined root_old → keys_defined root_new →
  is_Some (main py_str_info py_upper root_old root_new).
Proof.
  intros Hold Hnew. unfold main.
  destruct (diff_elements_is_Some root_old Hold root_new (tag root_old) Hnew)
    as [diffs Hdiffs].
  rewrite Hdiffs. simpl. apply print_differences_well_formed.
  eapply Forall_impl; [by eapply diff_elements_shape|]. by intros d [_ ?].
Qed.

Lemma main_never_raises_witness :
  is_Some (main (λ _, "") id two_mappings one_mapping).
Proof.
  apply (main_never_raises (λ _, "") id two_mappings one_mapping);
    apply (bool_decide_unpack _); by vm_compute.
Defined.

(** X26: [main] prints the single line [No differences found.] exactly when the
    comparison of the two roots returns no record. *)
Theorem main_no_differences (py_str_info : diff_info → string)
    (py_upper : string → string) (root_old root_new : Element) :
  main py_str_info py_upper root_old root_new = Some ["No differences found."]
  ↔ diff_elements (Some root_old) (Some root_new) (tag root_old) = Some [].
Proof.
  unfold main.
  destruct (diff_elements _ _ _) as [diffs|]; simpl; [|done].
  unfold print_differences. case_decide as Hnil; [by subst|].
  split; [|by intros [= ->]].
  destruct (mapM _ _) as [sections|]; simpl; [|done].
  intros Hout. by vm_compute in Hout.
Qed.

(** ** Keys of a property list *)

Lemma same_key_texts_filter (P : Element → Prop) `{∀ e, Decision (P e)}
    (l l' : list Element) :
  (∀ c c', tag c = "key" → tag c' = "key" → P c ↔ P c') →
  same_key_texts l l' → same_key_texts (filter P l) (filter P l').
Proof.
  intros HP Hl. unfold same_key_texts in *.
  induction Hl as [|c c' l l' Hc Hl IH]; [constructor|].
  rewrite !filter_cons.
  assert (P c ↔ P c') as Hiff.
  { destruct Hc as [(? & ? & _)| ->]; [by apply HP|done]. }
  destruct (decide (P c)) as [Hp|Hp]; destruct (decide (P c')) as [Hp'|Hp'].
  - by constructor.
  - exfalso. apply Hp'. by apply Hiff.
  - exfalso. apply Hp. by apply Hiff.
  - done.
Qed.

Lemma same_key_texts_filter_children l l' :
  same_key_texts l l' → same_key_texts (filter_children l) (filter_children l').
Proof.
  unfold filter_children. cbn zeta. apply same_key_texts_filter.
  intros c c' Hc Hc'. rewrite Hc, Hc'. split; intros _ [[=] _].
Qed.

Lemma same_key_texts_filter_tag u l l' :
  same_key_texts l l' →
  same_key_texts (filter (λ e, tag e = u) l) (filter (λ e, tag e = u) l').
Proof.
  apply same_key_texts_filter. intros c c' Hc Hc'. by rewrite Hc, Hc'.
Qed.

Lemma same_key_texts_other_tag u l l' :
  u ≠ "key" → same_key_texts l l' →
  filter (λ e, tag e = u) l = filter (λ e, tag e = u) l'.
Proof.
  intros Hu Hl. induction Hl as [|c c' l l' Hc Hl IH]; [done|].
  rewrite !filter_cons. destruct Hc as [(Hc & Hc' & _)| ->].
  - rewrite !decide_False by congruence. done.
  - by rewrite IH.
Qed.

Lemma same_key_texts_stripped_text l l' :
  same_key_texts l l' → stripped_text <$> l = stripped_text <$> l'.
Proof.
  intros Hl. induction Hl as [|c c' l l' Hc Hl IH]; [done|].
  rewrite !fmap_cons, IH. by destruct Hc as [(_ & _ & ->)| ->].
Qed.

Lemma same_key_texts_refl l : same_key_texts l l.
Proof. apply Forall2_same_length_lookup_2; [done|]. intros i c c' Hc Hc'. right. congruence. Qed.

Section plist.
Variable rec : option Element → option Element → string → option (list DiffRecord).

Lemma diff_children_same_key_texts cs cs' ns ns' path :
  str_contains ".plist.dict" path = true →
  same_key_texts cs cs' → same_key_texts ns ns' →
  diff_children rec cs ns path = diff_children rec cs' ns' path.
Proof.
  intros Hpath Hcs Hns. unfold diff_children.
  apply same_key_texts_filter_children in Hcs, Hns.
  assert (∀ l l', same_key_texts l l' →
            dom (group_by_tag l) = dom (group_by_tag l')) as Hdom.
  { intros l l' Hl. apply set_eq. intros u.
    rewrite !elem_of_dom_group_by_tag_filter.
    pose proof (Forall2_length _ _ _ (same_key_texts_filter_tag u l l' Hl)) as Hlen.
    split; intros Hne Hnil; rewrite Hnil in Hlen; simpl in Hlen;
      apply Hne, length_zero_iff_nil; lia. }
  rewrite (Hdom _ _ Hcs), (Hdom _ _ Hns).
  apply for_each_ext. intros u _. rewrite !group_by_tag_default.
  destruct (decide (u = "key")) as [->|Hu].
  - rewrite !decide_True by (by rewrite Hpath).
    unfold handle_plist_keys.
    by rewrite (same_key_texts_stripped_text _ _
                  (same_key_texts_filter_tag "key" _ _ Hcs)),
      (same_key_texts_stripped_text _ _ (same_key_texts_filter_tag "key" _ _ Hns)).
  - by rewrite (same_key_texts_other_tag u _ _ Hu Hcs),
      (same_key_texts_other_tag u _ _ Hu Hns).
Qed.
End plist.

(** X19: Below a path that contains [.plist.dict], the [key] children of two
    compared nodes are compared by their trimmed texts only: their
    attributes and their own children are never looked at, and replacing a
    [key] child by any [key] element with the same trimmed text, on either
    side, leaves the result unchanged. *)
Theorem diff_elements_plist_keys_by_text (t t' : string) (a a' : gmap string string)
    (x x' : option string) (cs cs' ns ns' : list Element) (path : string) :
  str_contains ".plist.dict" path = true →
  same_key_texts cs cs' → same_key_texts ns ns' →
  same_records
    (diff_elements (Some (mkElement t a x cs)) (Some (mkElement t' a' x' ns)) path)
    (diff_elements (Some (mkElement t a x cs')) (Some (mkElement t' a' x' ns')) path).
Proof.
  intros Hpath Hcs Hns. apply same_records_eq.
  rewrite !diff_elements_unfold. unfold diff_elements_body. simpl.
  by rewrite (diff_children_same_key_texts _ cs cs' ns ns' path Hpath Hcs Hns).
Qed.

Lemma diff_elements_plist_keys_by_text_witness :
  same_records
    (diff_elements
       (Some (mkElement "dict" ∅ None [mkElement "key" {[ "id" := "1" ]} (Some "K") []]))
       (Some (mkElement "dict" ∅ None [leaf "key" "K"; leaf "key" "N"]))
       "database.plist.dict")
    (diff_elements
       (Some (mkElement "dict" ∅ None
                [mkElement "key" {[ "lang" := "en" ]} (Some " K ") [leaf "note" "n"]]))
       (Some (mkElement "dict" ∅ None [leaf "key" "K"; leaf "key" "N"]))
       "database.plist.dict").
Proof.
  apply (diff_elements_plist_keys_by_text "dict" "dict" ∅ ∅ None None).
  - by vm_compute.
  - constructor; [|constructor]. left. by vm_compute.
  - apply same_key_texts_refl.
Defined.

(** ** Paths in the report *)

(** X21: The path of a record that the key-based strategy emits for an [object]
    child of the compared node, [path.object[<key>]], is printed as
    [path.object.{<key>}], when neither the path nor the description of the
    key holds a further [object[]. *)
Theorem normalize_path_object_record (path fk : string) :
  str_contains "object[" (path +:+ ".object") = false →
  str_contains "object[" (fk +:+ "]") = false →
  normalize_path (path +:+ ".object[" +:+ fk +:+ "]") =
    path +:+ ".object.{" +:+ fk +:+ "}".
Proof.
  intros Hpath Hfk.
  change (".object[" +:+ fk +:+ "]") with ("." +:+ "object[" +:+ fk +:+ "]").
  change (".object.{" +:+ fk +:+ "}") with ("." +:+ "object.{" +:+ fk +:+ "}").
  rewrite <- !(str_app_assoc path ".").
  apply normalize_path_last_key_segment; [|done].
  by rewrite str_app_assoc.
Qed.

Lemma normalize_path_object_record_witness :
  normalize_path ("database" +:+ ".object[" +:+ "name: hasUpdate" +:+ "]") =
    "database" +:+ ".object.{" +:+ "name: hasUpdate" +:+ "}".
Proof.
  apply (normalize_path_object_record "database" "name: hasUpdate"); by vm_compute.
Defined.

(** ** Nothing is lost in the report *)

Lemma sorted_insert_Permutation {A} (key : A → string) x l :
  sorted_insert key x l ≡ₚ x :: l.
Proof.
  induction l as [|y l IH]; [done|]. simpl.
  destruct (String.leb _ _); [done|]. by rewrite IH, Permutation_swap.
Qed.

Lemma py_sorted_Permutation {A} (key : A → string) l : py_sorted key l ≡ₚ l.
Proof.
  induction l as [|x l IH]; [done|]. unfold py_sorted in *. simpl.
  by rewrite sorted_insert_Permutation, IH.
Qed.

Lemma elem_of_messages_of (d : DiffRecord) diffs :
  d ∈ diffs → d.2 ∈ messages_of d.1 diffs.
Proof.
  intros Hd. unfold messages_of. apply list_elem_of_fmap. exists d. split; [done|].
  by apply list_elem_of_filter.
Qed.

Lemma print_mismatches_path messages out msg :
  print_mismatches messages = Some out → msg ∈ messages →
  ("Path: " +:+ d_path msg) ∈ out.
Proof.
  unfold print_mismatches. intros Hout Hmsg.
  destruct (mapM _ messages) as [body|] eqn:Hbody; [|done]. simpl in Hout.
  injection Hout as <-. apply mapM_Some in Hbody.
  apply list_elem_of_lookup in Hmsg as [i Hi].
  destruct (Forall2_lookup_l _ _ _ _ _ Hbody Hi) as (lines & Hlines & Hmsg).
  destruct (d_old msg) as [old|]; [|done]. destruct (d_new msg) as [new|]; [|done].
  simpl in Hmsg. injection Hmsg as <-.
  do 2 right. apply list_elem_of_In, in_concat.
  eexists. split; [apply list_elem_of_In; by eapply list_elem_of_lookup_2|].
  by left.
Qed.

Lemma print_missing_nodes_path messages out msg :
  print_missing_nodes messages = Some out → msg ∈ messages →
  ("Path: " +:+ normalize_path (d_path msg)) ∈ out.
Proof.
  unfold print_missing_nodes. intros Hout Hmsg.
  destruct (messages !! 0) as [first|]; [|done]. simpl in Hout. injection Hout as <-.
  do 2 right. apply list_elem_of_In, in_flat_map. exists msg. split.
  - apply list_elem_of_In. by rewrite py_sorted_Permutation.
  - by left.
Qed.

Lemma print_extra_nodes_path messages out msg :
  print_extra_nodes messages = Some out → msg ∈ messages →
  ("Path: " +:+ normalize_path (d_path msg)) ∈ out.
Proof.
  unfold print_extra_nodes. intros Hout Hmsg.
  destruct (messages !! 0) as [first|]; [|done]. simpl in Hout. injection Hout as <-.
  do 2 right. apply list_elem_of_In, in_flat_map. exists msg. split.
  - apply list_elem_of_In. by rewrite py_sorted_Permutation.
  - by left.
Qed.

Lemma report_section_path print messages out msg line :
  (∀ out', print messages = Some out' → msg ∈ messages → line ∈ out') →
  report_section print messages = Some out → msg ∈ messages → line ∈ out.
Proof.
  intros Hprint. unfold report_section. case_decide as Hnil.
  - intros _ Hmsg. rewrite Hnil in Hmsg. by apply elem_of_nil in Hmsg.
  - apply Hprint.
Qed.

(** X24: Every record of a comparison is in the report: its path is printed on a
    line of its own, as it is for a mismatch and normalised for a missing
    or an extra node. *)
Theorem print_differences_lists_every_record (py_str_info : diff_info → string)
    (py_upper : string → string) (old_elem new_elem : option Element)
    (path : string) (diffs : list DiffRecord) (out : list string) (d : DiffRecord) :
  diff_elements old_elem new_elem path = Some diffs →
  print_differences py_str_info py_upper diffs = Some out →
  d ∈ diffs →
  ("Path: " +:+ (if decide (d.1 = TYPE_MISMATCH) then d_path d.2
                 else normalize_path (d_path d.2))) ∈ out.
Proof.
  intros Hdiffs Hout Hd.
  pose proof (diff_elements_shape _ _ _ _ Hdiffs) as Hshape.
  assert (Forall well_formed diffs) as Hwf.
  { eapply Forall_impl; [exact Hshape|]. by intros ? [_ ?]. }
  assert (diffs ≠ []) as Hne by (intros ->; by apply elem_of_nil in Hd).
  rewrite print_differences_three_types in Hout; [|done|]; last first.
  { eapply Forall_impl; [exact Hwf|].
    intros r [(-> & _)|[(-> & _)|(-> & _)]]; rewrite !elem_of_cons; auto. }
  destruct (report_section print_extra_nodes _) as [extra|] eqn:Hextra; [|done].
  destruct (report_section print_mismatches _) as [mismatch|] eqn:Hmismatch; [|done].
  destruct (report_section print_missing_nodes _) as [missing|] eqn:Hmissing; [|done].
  simpl in Hout. injection Hout as <-.
  pose proof (elem_of_messages_of d diffs Hd) as Hmsg.
  rewrite Forall_forall in Hwf.
  right. rewrite !elem_of_app.
  destruct (Hwf d Hd) as [(Ht & _)|[(Ht & _)|(Ht & _)]]; rewrite Ht in Hmsg |- *.
  - rewrite decide_True by done. right. left.
    eapply report_section_path; [|exact Hmismatch|exact Hmsg].
    intros out'. apply print_mismatches_path.
  - rewrite decide_False by done. right. right.
    eapply report_section_path; [|exact Hmissing|exact Hmsg].
    intros out'. apply print_missing_nodes_path.
  - rewrite decide_False by done. left.
    eapply report_section_path; [|exact Hextra|exact Hmsg].
    intros out'. apply print_extra_nodes_path.
Qed.

Lemma print_differences_lists_every_record_witness :
  ("Path: " +:+
   (if decide ((TYPE_MISSING,
                mkInfo CATEGORY_MISSING "database.object[name: x]"
                  (Some (PyStr "[name: x]")) None None None).1 = TYPE_MISMATCH)
    then d_path (TYPE_MISSING,
                 mkInfo CATEGORY_MISSING "database.object[name: x]"
                   (Some (PyStr "[name: x]")) None None None).2
    else normalize_path
           (d_path (TYPE_MISSING,
                    mkInfo CATEGORY_MISSING "database.object[name: x]"
                      (Some (PyStr "[name: x]")) None None None).2)))
  ∈ [LF +:+ "Differences found (grouped by error type):";
     LF +:+ "=== MISSING NODE (1 occurrence) ===";
     "Category: missing in new.xml while present in old.xml" +:+ LF;
     "Path: database.object.{name: x}"; ""].
Proof.
  apply (print_differences_lists_every_record (λ _, "") id
           (Some (database [attribute_mapping "x" []])) (Some (database []))
           "database"
           [(TYPE_MISSING,
             mkInfo CATEGORY_MISSING "database.object[name: x]"
               (Some (PyStr "[name: x]")) None None None)]).
  - by vm_compute.
  - by vm_compute.
  - left.
Defined.

(** ** How a key that cannot be derived propagates *)

Lemma for_each_None {A} (f : A → option (list DiffRecord)) xs x :
  x ∈ xs → f x = None → for_each f xs = None.
Proof.
  intros Hx Hnone. destruct (for_each f xs) as [ds|] eqn:Hds; [|done].
  destruct (for_each_elem f xs ds x Hds Hx) as (es & Hes & _). congruence.
Qed.

Lemma key_dict_None l c :
  c ∈ l → get_object_key c = None → key_dict l = None.
Proof.
  intros Hc Hnone. destruct (key_dict l) as [d|] eqn:Hd; [|done].
  assert (is_Some (key_dict l)) as Hsome by (by eexists).
  apply key_dict_is_Some in Hsome. rewrite Forall_forall in Hsome.
  destruct (Hsome c Hc) as [k Hk]. congruence.
Qed.

Lemma elem_of_filter_children_object c l :
  tag c = "object" → c ∈ l → c ∈ filter_children l.
Proof.
  intros Htag Hc. unfold filter_children. cbn zeta.
  apply list_elem_of_filter. split; [|done].
  intros [Hattr _]. congruence.
Qed.

(** X2: One [object] child whose key cannot be derived, among the children of
    either of two compared nodes with the same tag, makes the whole
    comparison raise, whether or not the child has a counterpart on the
    other side. *)
Theorem diff_elements_underivable_key (A B c : Element) (path : string) :
  tag A = tag B → tag c = "object" → get_object_key c = None →
  c ∈ children A ∨ c ∈ children B →
  diff_elements (Some A) (Some B) path = None.
Proof.
  intros Htag Hobj Hkey Hc. rewrite diff_elements_unfold. unfold diff_elements_body.
  simpl. rewrite compare_tags_same by done. rewrite decide_False by (by intros []).
  assert (diff_children diff_elements (children A) (children B) path = None) as ->;
    [|done].
  unfold diff_children. apply (for_each_None _ _ "object").
  - apply elem_of_elements, elem_of_union. rewrite !elem_of_dom_group_by_tag.
    destruct Hc as [Hc|Hc]; [left|right]; exists c;
      (split; [by apply elem_of_filter_children_object|done]).
  - rewrite decide_False by (by intros [[=] _]). rewrite decide_True by done.
    rewrite !group_by_tag_default. unfold handle_object_nodes.
    assert (∀ l, c ∈ l →
              key_dict (filter (λ e, tag e = "object") (filter_children l)) = None)
      as Hnone.
    { intros l Hl. apply (key_dict_None _ c); [|done].
      apply list_elem_of_filter. split; [done|].
      by apply elem_of_filter_children_object. }
    destruct Hc as [Hc|Hc]; rewrite (Hnone _ Hc); [done|].
    by destruct (key_dict _).
Qed.

Lemma diff_elements_underivable_key_witness :
  diff_elements (Some (database [attribute_mapping "x" []]))
                (Some (database [attribute_mapping "x" []; empty_path_model]))
                "database" = None.
Proof.
  apply (diff_elements_underivable_key (database [attribute_mapping "x" []])
           (database [attribute_mapping "x" []; empty_path_model])
           empty_path_model "database").
  - done.
  - done.
  - by vm_compute.
  - right. right. left.
Defined.
